(** * BusWatch: the arrival extractor and the refresh controller

    A shallow embedding of [src/StopPage.tsx] (the stop page) and of
    [Home.tsx] (the home page, same refresh logic, older header pattern):

    - [parseMinutesNum], [parseStopsAway], [parseStopName], [parseBusData]:
      the extractor, over a tree model of the DOM the browser hands back;
    - [fetchBusData]: the refresh callback, as a transition system over the
      component's state, its two refs and the suspended async bodies.

    Platform functions the code calls (String.prototype.trim, includes,
    toLowerCase, replace, match, parseFloat, Math.round, Math.max, the
    Number to String conversion, querySelector/querySelectorAll,
    textContent) are modelled after ECMA-262 and the DOM standard.

    Strings are sequences of code units below 256 (Latin-1); numbers are
    IEEE-754 binary64 values ([spec_float] at precision 53). *)

From Stdlib Require Import ZArith NArith List String Ascii Bool Lia.
From Stdlib Require Import Floats.SpecFloat.
From Stdlib Require Import Permutation.
Import ListNotations.
Local Open Scope string_scope.

(* ===================================================================== *)
(** * JavaScript strings *)
(* ===================================================================== *)

Module JsString.

Definition code (c : ascii) : N := N_of_ascii c.

(** WhiteSpace and LineTerminator code units below 256: TAB, LF, VT, FF,
    CR, SP and NBSP.  This is the set [trim], [\s] and [parseFloat] use. *)
Definition isWhiteSpace (c : ascii) : bool :=
  let n := code c in
  ((9 <=? n) && (n <=? 13) || (n =? 32) || (n =? 160))%N.

(** LineTerminator: LF and CR (the pattern [.] refuses them). *)
Definition isLineTerminator (c : ascii) : bool :=
  let n := code c in ((n =? 10) || (n =? 13))%N.

Definition isDigit (c : ascii) : bool :=
  let n := code c in ((48 <=? n) && (n <=? 57))%N.

Fixpoint trimStart (s : string) : string :=
  match s with
  | String c r => if isWhiteSpace c then trimStart r else s
  | EmptyString => EmptyString
  end.

Fixpoint rev_acc (s acc : string) : string :=
  match s with
  | EmptyString => acc
  | String c r => rev_acc r (String c acc)
  end.

Definition rev (s : string) : string := rev_acc s EmptyString.

Definition trimEnd (s : string) : string := rev (trimStart (rev s)).

Definition trim (s : string) : string := trimEnd (trimStart s).

(** [startsWith p s]: [p] is a prefix of [s]. *)
Fixpoint startsWith (p s : string) : bool :=
  match p, s with
  | EmptyString, _ => true
  | String a p', String b s' => Ascii.eqb a b && startsWith p' s'
  | String _ _, EmptyString => false
  end.

(** [s.includes(t)]. *)
Fixpoint includes (s t : string) : bool :=
  startsWith t s ||
  match s with
  | EmptyString => false
  | String _ r => includes r t
  end.

(** Lower-casing of one code unit: A-Z, and the Latin-1 capitals
    U+00C0-U+00DE except the multiplication sign U+00D7. *)
Definition lowerChar (c : ascii) : ascii :=
  let n := code c in
  if ((65 <=? n) && (n <=? 90)
      || (192 <=? n) && (n <=? 222) && negb (n =? 215))%N
  then ascii_of_N (n + 32) else c.

Fixpoint toLowerCase (s : string) : string :=
  match s with
  | EmptyString => EmptyString
  | String c r => String (lowerChar c) (toLowerCase r)
  end.

Fixpoint drop (n : nat) (s : string) : string :=
  match n, s with
  | O, _ => s
  | S n', String _ r => drop n' r
  | S _, EmptyString => EmptyString
  end.

Fixpoint take (n : nat) (s : string) : string :=
  match n, s with
  | O, _ => EmptyString
  | S n', String c r => String c (take n' r)
  | S _, EmptyString => EmptyString
  end.

(** [s.replace(pat, rep)] with a string pattern: the first occurrence
    only ([rep] is used verbatim; the replacements the code passes hold
    no [$]). *)
Fixpoint replace (s pat rep : string) : string :=
  if startsWith pat s then rep ++ drop (String.length pat) s
  else match s with
       | EmptyString => EmptyString
       | String c r => String c (replace r pat rep)
       end.

(** Truthiness of a string. *)
Definition truthy (s : string) : bool :=
  match s with EmptyString => false | _ => true end.

End JsString.

(* ===================================================================== *)
(** * Regular expressions (the backtracking matcher of ECMA-262) *)
(* ===================================================================== *)

Module Regex.
Import JsString.

(** Members of a character class. *)
Inductive atom : Type :=
| ADigit                       (* \d *)
| AChar (c : ascii).

Inductive regex : Type :=
| Eps
| Chr (c : ascii)
| Dot                          (* .   *)
| Space                        (* \s  *)
| NonSpace                     (* \S  *)
| Class (members : list atom)  (* [...] *)
| Bol                          (* ^   *)
| Eol                          (* $   *)
| Seq (r1 r2 : regex)
| Alt (r1 r2 : regex)          (* r1|r2 *)
| Star (greedy : bool) (r : regex)
| Group (n : nat) (r : regex). (* the n-th capturing parentheses *)

Definition Plus (greedy : bool) (r : regex) : regex := Seq r (Star greedy r).
Definition Opt (r : regex) : regex := Alt r Eps.

Fixpoint Lit (s : string) : regex :=
  match s with
  | EmptyString => Eps
  | String c r => Seq (Chr c) (Lit r)
  end.

Fixpoint Seqs (rs : list regex) : regex :=
  match rs with
  | [] => Eps
  | r :: rs' => Seq r (Seqs rs')
  end.

(** Canonicalize (no [u] flag): the upper-case code unit, unless that
    would take a non-ASCII unit into ASCII or needs several units.
    MICRO SIGN and y-diaeresis leave Latin-1 (U+039C, U+0178). *)
Definition canonicalize (c : ascii) : N :=
  let n := code c in
  if ((97 <=? n) && (n <=? 122))%N then (n - 32)%N
  else if ((224 <=? n) && (n <=? 254) && negb (n =? 247))%N then (n - 32)%N
  else if (n =? 181)%N then 924%N
  else if (n =? 255)%N then 376%N
  else n.

Definition charEq (icase : bool) (a b : ascii) : bool :=
  if icase then (canonicalize a =? canonicalize b)%N else Ascii.eqb a b.

Definition atomMatches (icase : bool) (a : atom) (c : ascii) : bool :=
  match a with
  | ADigit => isDigit c
  | AChar x => charEq icase x c
  end.

(** Captures: the text of each group that took part in the match. *)
Definition captures := list (nat * string).

Fixpoint capture (n : nat) (cs : captures) : option string :=
  match cs with
  | [] => None
  | (m, v) :: cs' => if Nat.eqb n m then Some v else capture n cs'
  end.

Definition result := (string * captures)%type.
Definition cont := string -> captures -> option result.

Definition orElse (a b : option result) : option result :=
  match a with Some x => Some x | None => b end.

Section Matcher.
Variable icase : bool.
(** Length of the whole input: [^] holds where nothing is consumed. *)
Variable total : nat.

Definition single (p : ascii -> bool) (s : string) (cs : captures)
           (k : cont) : option result :=
  match s with
  | String c r => if p c then k r cs else None
  | EmptyString => None
  end.

(** The rounds of a repetition whose body is matched by [body]: a
    greedy one takes another round first, a lazy one tries the
    continuation first; a round that consumes nothing is refused.
    [fuel] is the length of the input left when the repetition is
    entered, which no sequence of consuming rounds can exceed. *)
Fixpoint rounds (body : string -> captures -> cont -> option result)
         (greedy : bool) (k : cont) (fuel : nat) (s : string)
         (cs : captures) {struct fuel} : option result :=
  match fuel with
  | O => k s cs
  | S fuel' =>
      let again :=
        body s cs
          (fun s' cs' =>
             if Nat.ltb (String.length s') (String.length s)
             then rounds body greedy k fuel' s' cs' else None) in
      if greedy then orElse again (k s cs)
      else orElse (k s cs) again
  end.

(** [rmatch r s cs k]: match [r] at the head of the remaining input
    [s], then continue with [k]; the left alternative is tried
    first. *)
Fixpoint rmatch (r : regex) (s : string) (cs : captures) (k : cont)
  {struct r} : option result :=
  match r with
  | Eps => k s cs
  | Chr c => single (charEq icase c) s cs k
  | Dot => single (fun c => negb (isLineTerminator c)) s cs k
  | Space => single isWhiteSpace s cs k
  | NonSpace => single (fun c => negb (isWhiteSpace c)) s cs k
  | Class ms => single (fun c => existsb (fun a => atomMatches icase a c) ms) s cs k
  | Bol => if Nat.eqb (String.length s) total then k s cs else None
  | Eol => match s with EmptyString => k s cs | _ => None end
  | Seq r1 r2 => rmatch r1 s cs (fun s' cs' => rmatch r2 s' cs' k)
  | Alt r1 r2 => orElse (rmatch r1 s cs k) (rmatch r2 s cs k)
  | Star greedy r' => rounds (rmatch r') greedy k (String.length s) s cs
  | Group n r' =>
      rmatch r' s cs
        (fun s' cs' =>
           k s' ((n, take (String.length s - String.length s') s) :: cs'))
  end.
End Matcher.

(** A successful match: the matched text ([m[0]]), its index, and the
    groups. *)
Record matchResult : Type := {
  whole : string;
  index : nat;
  groups : captures
}.

(** [m[n]] for n >= 1: the group's text, or undefined. *)
Definition group (n : nat) (m : matchResult) : option string :=
  capture n (groups m).

(** Try every start index from the left, as RegExpBuiltinExec does for
    a pattern without the [g] and [y] flags. *)
Fixpoint searchFrom (icase : bool) (r : regex) (total : nat) (s : string)
  : option matchResult :=
  match rmatch icase total r s [] (fun s' cs' => Some (s', cs')) with
  | Some (s', cs') =>
      Some {| whole := take (String.length s - String.length s') s;
              index := total - String.length s;
              groups := cs' |}
  | None =>
      match s with
      | EmptyString => None
      | String _ s' => searchFrom icase r total s'
      end
  end.

(** [str.match(re)] for a non-global [re]. *)
Definition exec (icase : bool) (r : regex) (s : string) : option matchResult :=
  searchFrom icase r (String.length s) s.

End Regex.

(* ===================================================================== *)
(** * JavaScript numbers (IEEE-754 binary64) *)
(* ===================================================================== *)

Module Num.
Import JsString.
Local Open Scope Z_scope.

Definition number := spec_float.

Definition prec : Z := 53.
Definition emax : Z := 1024.

Definition NaN : number := S754_nan.

(** The Number value of an integer (round to nearest, ties to even). *)
Definition ofZ (z : Z) : number := binary_normalize prec emax z 0 false.

Definition isNaN (x : number) : bool :=
  match x with S754_nan => true | _ => false end.

Definition mul (x y : number) : number := SFmul prec emax x y.

(** Equality of representations (values are kept canonical). *)
Definition same (x y : number) : bool :=
  match x, y with
  | S754_zero a, S754_zero b => Bool.eqb a b
  | S754_infinity a, S754_infinity b => Bool.eqb a b
  | S754_nan, S754_nan => true
  | S754_finite a m e, S754_finite b m' e' =>
      Bool.eqb a b && Pos.eqb m m' && Z.eqb e e'
  | _, _ => false
  end.

(** Number of decimal digits of a positive integer. *)
Definition decimalDigits (m : Z) : Z := Z.of_nat (List.length
  (let fix go (fuel : nat) (m : Z) : list Z :=
     match fuel with
     | O => []
     | S f => if m <=? 0 then [] else (m mod 10) :: go f (m / 10)
     end in go (S (Z.to_nat (Z.log2 m))) m)).

(** The Number value of [(-1)^neg * m * 10^e], correctly rounded.
    Outside the range of binary64 by a wide margin the result is
    known without computing the power. *)
Definition ofDecimal (neg : bool) (m : Z) (e : Z) : number :=
  if m <=? 0 then S754_zero neg
  else
    let d := decimalDigits m in
    if 310 <? d + e then S754_infinity neg
    else if d + e <? -330 then S754_zero neg
    else if 0 <=? e then
      binary_normalize prec emax (if neg then - (m * 10 ^ e) else m * 10 ^ e) 0 neg
    else
      let den := 10 ^ (- e) in
      let sh := Z.max 0 (Z.log2 den - Z.log2 m + 64) in
      let num := m * 2 ^ sh in
      let q := num / den in
      let r := num mod den in
      let loc := if r =? 0 then loc_Exact else loc_Inexact (2 * r ?= den) in
      binary_round_aux prec emax neg q (- sh) loc.

(** ** parseFloat *)

Fixpoint spanDigits (s : string) : string * string :=
  match s with
  | String c r =>
      if isDigit c then let (d, rest) := spanDigits r in (String c d, rest)
      else (EmptyString, s)
  | EmptyString => (EmptyString, EmptyString)
  end.

Fixpoint digitsValue (acc : Z) (s : string) : Z :=
  match s with
  | EmptyString => acc
  | String c r => digitsValue (10 * acc + (Z.of_N (code c) - 48)) r
  end.

(** ExponentPart, when one is there: [e] or [E], a sign, digits. *)
Definition exponentPart (s : string) : Z :=
  match s with
  | String c r =>
      if Ascii.eqb c "e" || Ascii.eqb c "E" then
        let '(neg, r') :=
          match r with
          | String "+" r' => (false, r')
          | String "-" r' => (true, r')
          | _ => (false, r)
          end in
        let (ds, _) := spanDigits r' in
        match ds with
        | EmptyString => 0
        | _ => if neg then - digitsValue 0 ds else digitsValue 0 ds
        end
      else 0
  | EmptyString => 0
  end.

(** [parseFloat(s)]: skip leading white space, read the longest prefix
    that is a StrDecimalLiteral, NaN when there is none. *)
Definition parseFloat (s : string) : number :=
  let t := trimStart s in
  let '(neg, t) :=
    match t with
    | String "+" r => (false, r)
    | String "-" r => (true, r)
    | _ => (false, t)
    end in
  if startsWith "Infinity" t then S754_infinity neg
  else
    let (ip, t2) := spanDigits t in
    let (fp, t3) :=
      match t2 with
      | String "." r => spanDigits r
      | _ => (EmptyString, t2)
      end in
    match ip, fp with
    | EmptyString, EmptyString => NaN
    | _, _ =>
        ofDecimal neg (digitsValue 0 (ip ++ fp))
                  (exponentPart t3 - Z.of_nat (String.length fp))
    end.

(** ** Math.round and Math.max *)

(** [Math.round(x)]: the nearest integer, ties towards +Infinity; NaN,
    the infinities and the zeros are returned as they are, and a
    negative [x >= -0.5] gives [-0]. *)
Definition round (x : number) : number :=
  match x with
  | S754_finite s m e =>
      if 0 <=? e then x
      else
        let v := if s then Z.neg m else Z.pos m in
        (* floor ((v * 2^e) + 1/2) *)
        let r := (2 * v + 2 ^ (- e)) / 2 ^ (1 - e) in
        binary_normalize prec emax r 0 s
  | _ => x
  end.

Definition ltb (x y : number) : bool := SFltb x y.

(** [Math.max(x, y)]: NaN if either is NaN; [+0] is larger than [-0]. *)
Definition max (x y : number) : number :=
  match x, y with
  | S754_nan, _ | _, S754_nan => S754_nan
  | S754_zero a, S754_zero b => S754_zero (a && b)
  | _, _ => if ltb x y then y else x
  end.

(** ** Number to String (ECMA-262, Number::toString, radix 10) *)

Fixpoint digitsFuel (fuel : nat) (m : Z) (acc : string) : string :=
  match fuel with
  | O => acc
  | S f =>
      let acc' := String (ascii_of_N (Z.to_N (48 + m mod 10))) acc in
      if m / 10 <=? 0 then acc' else digitsFuel f (m / 10) acc'
  end.

(** The decimal digits of a non-negative integer, without leading zeros. *)
Definition digitsOf (m : Z) : string :=
  digitsFuel (S (Z.to_nat (Z.log2 m))) m EmptyString.

Fixpoint zeros (n : nat) : string :=
  match n with O => EmptyString | S n' => String "0" (zeros n') end.

(** [geP10 num den t]: [num/den >= 10^t]. *)
Definition geP10 (num den t : Z) : bool :=
  if 0 <=? t then 10 ^ t * den <=? num else den <=? num * 10 ^ (- t).

Fixpoint adjustLog (fuel : nat) (num den t : Z) : Z :=
  match fuel with
  | O => t
  | S f =>
      if negb (geP10 num den t) then adjustLog f num den (t - 1)
      else if geP10 num den (t + 1) then adjustLog f num den (t + 1)
      else t
  end.

(** [floor (log10 (num/den))]. *)
Definition log10Floor (num den : Z) : Z :=
  adjustLog 8 num den (((Z.log2 num - Z.log2 den) * 30103) / 100000).

(** For a [k]: the [s] of [k] digits with [s * 10^(n-k)] closest to
    [x = num/den] among those whose Number value is [x], if any
    ([s = 10^k] stands for [10^(k-1)] at [n+1]). *)
Definition shortestAt (x : number) (num den n k : Z) : option Z :=
  let '(a, b) :=
    if 0 <=? n - k then (num, den * 10 ^ (n - k))
    else (num * 10 ^ (k - n), den) in
  let lo := a / b in
  let hi := lo + 1 in
  let okLo := same (ofDecimal false lo (n - k)) x in
  let okHi := negb (a mod b =? 0) && same (ofDecimal false hi (n - k)) x in
  match okLo, okHi with
  | true, true =>
      match 2 * a ?= (2 * lo + 1) * b with
      | Lt => Some lo
      | Gt => Some hi
      | Eq => Some (if Z.even lo then lo else hi)
      end
  | true, false => Some lo
  | false, true => Some hi
  | false, false => None
  end.

Fixpoint shortest (ks : list Z) (x : number) (num den n : Z) : Z * Z :=
  match ks with
  | [] => (17, num * 10 ^ (17 - n) / den)
  | k :: ks' =>
      match shortestAt x num den n k with
      | Some s => (k, s)
      | None => shortest ks' x num den n
      end
  end.

Definition positiveToString (m : positive) (e : Z) : string :=
  let x := S754_finite false m e in
  let num := Z.pos m * 2 ^ (Z.max e 0) in
  let den := 2 ^ (Z.max (- e) 0) in
  let n0 := log10Floor num den + 1 in
  let '(k, s0) :=
    shortest [1; 2; 3; 4; 5; 6; 7; 8; 9; 10; 11; 12; 13; 14; 15; 16; 17]
             x num den n0 in
  let '(n, s) := if s0 =? 10 ^ k then (n0 + 1, 10 ^ (k - 1)) else (n0, s0) in
  let ds := digitsOf s in
  if (k <=? n) && (n <=? 21) then
    ds ++ zeros (Z.to_nat (n - k))
  else if (0 <? n) && (n <=? 21) then
    take (Z.to_nat n) ds ++ "." ++ drop (Z.to_nat n) ds
  else if (-6 <? n) && (n <=? 0) then
    "0." ++ zeros (Z.to_nat (- n)) ++ ds
  else
    let ex := n - 1 in
    let tail := "e" ++ (if ex <? 0 then "-" else "+") ++ digitsOf (Z.abs ex) in
    if k =? 1 then ds ++ tail
    else take 1 ds ++ "." ++ drop 1 ds ++ tail.

(** [String(x)], as a template literal calls it. *)
Definition toString (x : number) : string :=
  match x with
  | S754_nan => "NaN"
  | S754_zero _ => "0"
  | S754_infinity false => "Infinity"
  | S754_infinity true => "-Infinity"
  | S754_finite false m e => positiveToString m e
  | S754_finite true m e => "-" ++ positiveToString m e
  end.

End Num.

Import JsString Regex Num.

(* ===================================================================== *)
(** * The DOM *)
(* ===================================================================== *)

Module Dom.

#[local] Set Warnings "-register-all".

(** A node of the parsed document.  Of an element only what the code
    looks at is kept: its tag (local name), the tokens of its [class]
    attribute and its children. *)
Inductive node : Type :=
| Text (data : string)
| Comment (data : string)
| Element (tag : string) (classes : list string) (children : list node).

(** What [DOMParser.parseFromString] returns: the tree, and the mode the
    parser put the document in (quirks mode when the text has no
    doctype, or an old one). *)
Record document : Type := {
  quirksMode : bool;
  roots : list node
}.

(** A node where it stands in its tree: the mode of its document, the
    tags of its ancestors (nearest first) and the siblings that follow
    it. *)
Record handle : Type := {
  inQuirks : bool;
  ancestors : list string;
  self : node;
  following : list node
}.

(** [walk q anc n sibs]: [n] and then its descendants, in tree order. *)
Fixpoint walk (q : bool) (anc : list string) (n : node) (sibs : list node)
  : list handle :=
  {| inQuirks := q; ancestors := anc; self := n; following := sibs |} ::
  match n with
  | Element t _ kids =>
      (fix forest (ks : list node) : list handle :=
         match ks with
         | [] => []
         | k :: ks' => (walk q (t :: anc) k ks' ++ forest ks')%list
         end) kids
  | _ => []
  end.

Fixpoint forest (q : bool) (anc : list string) (ks : list node) : list handle :=
  match ks with
  | [] => []
  | k :: ks' => (walk q anc k ks' ++ forest q anc ks')%list
  end.

(** The descendants of a node, in tree order. *)
Definition descendants (h : handle) : list handle :=
  match self h with
  | Element t _ kids => forest (inQuirks h) (t :: ancestors h) kids
  | _ => []
  end.

(** The selectors the code uses: [.c], [t] and [t1 t2]. *)
Inductive selector : Type :=
| ByClass (c : string)
| ByTag (t : string)
| Descendant (t1 t2 : string).

(** ASCII lower case: [A]-[Z] only. *)
Definition asciiLowerChar (c : ascii) : ascii :=
  let n := N_of_ascii c in
  if ((65 <=? n) && (n <=? 90))%N then ascii_of_N (n + 32) else c.

Fixpoint asciiLower (s : string) : string :=
  match s with
  | EmptyString => EmptyString
  | String c s' => String (asciiLowerChar c) (asciiLower s')
  end.

(** A class selector against a class token: the same string, and in a
    quirks-mode document the same string up to ASCII case. *)
Definition sameClass (q : bool) (c token : string) : bool :=
  if q then String.eqb (asciiLower c) (asciiLower token)
  else String.eqb c token.

(** A selector is matched against the whole tree: the [t1] of [t1 t2]
    may be any ancestor.  The tags of the model are the local names of
    HTML elements, in lower case as the selectors of the code are. *)
Definition matches (sel : selector) (h : handle) : bool :=
  match self h with
  | Element t cls _ =>
      match sel with
      | ByClass c => existsb (sameClass (inQuirks h) c) cls
      | ByTag x => String.eqb x t
      | Descendant a b => String.eqb b t && existsb (String.eqb a) (ancestors h)
      end
  | _ => false
  end.

Definition querySelectorAll (sel : selector) (h : handle) : list handle :=
  filter (matches sel) (descendants h).

Definition querySelector (sel : selector) (h : handle) : option handle :=
  hd_error (querySelectorAll sel h).

Definition docQuerySelectorAll (sel : selector) (d : document) : list handle :=
  filter (matches sel) (forest (quirksMode d) [] (roots d)).

(** The data of the text nodes below a node, concatenated. *)
Fixpoint text (n : node) : string :=
  match n with
  | Text d => d
  | Comment d => d
  | Element _ _ kids =>
      (fix cat (ks : list node) : string :=
         match ks with
         | [] => EmptyString
         | Comment _ :: ks' => cat ks'
         | k :: ks' => text k ++ cat ks'
         end) kids
  end.

(** [node.textContent]: never null on the nodes of this model (it is
    null on a document or a doctype only). *)
Definition textContent (n : node) : option string := Some (text n).

End Dom.

(* ===================================================================== *)
(** * The extractor *)
(* ===================================================================== *)

Import JsString Regex Num Dom.

Record BusArrival : Type := {
  minutes : string;
  minutesNum : number;
  stopsAway : string;
  vehicleId : string
}.

Record BusRoute : Type := {
  route : string;
  direction : string;
  arrivals : list BusArrival
}.

(** [m[n]] read as a string: the groups of the patterns below take part
    in every match, a missing one would print as [undefined]. *)
Definition at_ (m : matchResult) (n : nat) : string :=
  match group n m with
  | Some v => v
  | None => "undefined"
  end.

(** [x ?? d] *)
Definition orDefault {A : Type} (x : option A) (d : A) : A :=
  match x with Some v => v | None => d end.

Definition half : number := S754_finite false 4503599627370496 (-53).

Definition parseMinutesNum (text : string) : number :=
  if includes (toLowerCase text) "approaching" then ofZ 0
  else if includes text "<" then half
  else
    let num := parseFloat text in
    if isNaN num then ofZ 999 else num.

(** [/([\d<]+)\s*stops?\s*away/i] *)
Definition stopsRe : regex :=
  Seqs [Group 1 (Plus true (Class [ADigit; AChar "<"]));
        Star true Space; Lit "stop"; Opt (Chr "s");
        Star true Space; Lit "away"].

(** [/([\d.]+)\s*miles?\s*away/i] *)
Definition milesRe : regex :=
  Seqs [Group 1 (Plus true (Class [ADigit; AChar "."]));
        Star true Space; Lit "mile"; Opt (Chr "s");
        Star true Space; Lit "away"].

Definition parseStopsAway (distanceText : string) : string :=
  match exec true stopsRe distanceText with
  | Some stopsMatch => at_ stopsMatch 1 ++ " stops away"
  | None =>
      if includes (toLowerCase distanceText) "approaching" then "Approaching"
      else
        match exec true milesRe distanceText with
        | Some milesMatch =>
            let miles := parseFloat (at_ milesMatch 1) in
            let stops := Num.max (ofZ 1) (Num.round (mul miles (ofZ 8))) in
            "~" ++ toString stops ++ " stops away"
        | None => distanceText
        end
  end.

(** The [while (node)] loop over the siblings after the heading. *)
Fixpoint firstText (sibs : list node) : option string :=
  match sibs with
  | [] => None
  | node :: rest =>
      let text := option_map trim (textContent node) in
      match text with
      | Some t => if truthy t then Some t else firstText rest
      | None => firstText rest
      end
  end.

(** The [for (const h3 of h3s)] loop. *)
Fixpoint scanHeadings (h3s : list handle) : string :=
  match h3s with
  | [] => EmptyString
  | h3 :: rest =>
      match textContent (self h3) with
      | Some t =>
          if includes t "Bus Stop:" then
            match firstText (following h3) with
            | Some text => text
            | None => scanHeadings rest
            end
          else scanHeadings rest
      | None => scanHeadings rest
      end
  end.

Definition parseStopName (doc : document) : string :=
  scanHeadings (docQuerySelectorAll (ByTag "h3") doc).

(** [/minutes?\s*,\s*(.+?)(?:\s*Vehicle|\s*$)/] *)
Definition distanceRe : regex :=
  Seqs [Lit "minute"; Opt (Chr "s"); Star true Space; Chr ",";
        Star true Space; Group 1 (Plus false Dot);
        Alt (Seq (Star true Space) (Lit "Vehicle"))
            (Seq (Star true Space) Eol)].

(** [distanceMatch?.[1]?.trim() ?? ''] for the full text of an item. *)
Definition rawDistanceOf (fullText : string) : string :=
  let distanceMatch := exec false distanceRe fullText in
  orDefault
    (match distanceMatch with
     | Some m => option_map trim (group 1 m)
     | None => None
     end) EmptyString.

(** The record pushed for a list item. *)
Definition parseItem (li : handle) : BusArrival :=
  let minutesEl := querySelector (ByTag "strong") li in
  let minutes :=
    orDefault (match minutesEl with
               | Some el => option_map trim (textContent (self el))
               | None => None
               end) EmptyString in
  let vehicleEl := querySelector (ByTag "small") li in
  let vehicleId :=
    orDefault (match vehicleEl with
               | Some el =>
                   option_map (fun t => replace (trim t) "Vehicle " EmptyString)
                              (textContent (self el))
               | None => None
               end) EmptyString in
  let fullText := orDefault (textContent (self li)) EmptyString in
  let rawDistance := rawDistanceOf fullText in
  {| minutes := minutes;
     minutesNum := parseMinutesNum minutes;
     stopsAway := parseStopsAway rawDistance;
     vehicleId := vehicleId |}.

(** The body of [ols.forEach]: what one ordered list adds to [arrivals]. *)
Definition parseList (ol : handle) : list BusArrival :=
  match querySelector (ByTag "li") ol with
  | None => []
  | Some li => [parseItem li]
  end.

Definition parseLists (dir : handle) : list BusArrival :=
  flat_map parseList (querySelectorAll (ByTag "ol") dir).

Definition headerTextOf (headerEl : handle) : string :=
  orDefault (option_map trim (textContent (self headerEl))) EmptyString.

(** [/^(\S+)\s+(.+)/] *)
Definition headerRe : regex :=
  Seqs [Bol; Group 1 (Plus true NonSpace); Plus true Space;
        Group 2 (Plus true Dot)].

(** The body of [directions.forEach]: what one block adds to [routes]
    ([None] for the two early returns). *)
Definition parseDirection (dir : handle) : option BusRoute :=
  match querySelector (Descendant "p" "strong") dir with
  | None => None
  | Some headerEl =>
      let headerText := headerTextOf headerEl in
      match exec false headerRe headerText with
      | None => None
      | Some m =>
          let route := at_ m 1 in
          let direction := at_ m 2 in
          Some {| route := route; direction := direction;
                  arrivals := parseLists dir |}
      end
  end.

Fixpoint collect {A B : Type} (f : A -> option B) (l : list A) : list B :=
  match l with
  | [] => []
  | x :: l' =>
      match f x with
      | Some y => y :: collect f l'
      | None => collect f l'
      end
  end.

Record StopSnapshot : Type := {
  stopName : string;
  routes : list BusRoute
}.

Definition parseDocument (doc : document) : StopSnapshot :=
  let stopName := parseStopName doc in
  let directions := docQuerySelectorAll (ByClass "directionAtStop") doc in
  {| stopName := stopName; routes := collect parseDirection directions |}.

(** The home page ([Home.tsx]): routes carry no direction and the header
    pattern asks for the route token and one white-space unit. *)
Module Home.

Record BusRoute : Type := {
  route : string;
  arrivals : list BusArrival
}.

(** [/^(\S+)\s/] *)
Definition headerRe : regex :=
  Seqs [Bol; Group 1 (Plus true NonSpace); Space].

Definition parseDirection (dir : handle) : option BusRoute :=
  match querySelector (Descendant "p" "strong") dir with
  | None => None
  | Some headerEl =>
      let headerText := headerTextOf headerEl in
      match exec false headerRe headerText with
      | None => None
      | Some m =>
          Some {| route := at_ m 1; arrivals := parseLists dir |}
      end
  end.

Definition parseDocument (doc : document) : list BusRoute :=
  collect parseDirection (docQuerySelectorAll (ByClass "directionAtStop") doc).

End Home.

Section Parser.
(** [new DOMParser().parseFromString(html, 'text/html')]: the browser's
    HTML parser, which returns a document for every string. *)
Variable parseFromString : string -> document.

Definition parseBusData (html : string) : StopSnapshot :=
  let doc := parseFromString html in
  parseDocument doc.

Definition Home_parseBusData (html : string) : list Home.BusRoute :=
  let doc := parseFromString html in
  Home.parseDocument doc.
End Parser.

(* ===================================================================== *)
(** * The extractor, statement by statement *)
(* ===================================================================== *)

(** The extractor once more, now as the statements of the source run one
    after the other together with the one way they can fail: reading a
    property of [null] or [undefined], or calling a method on it, throws
    a [TypeError].  A value the platform may hand back as [null] or
    [undefined] (the result of [querySelector], of [String.match], of
    [textContent], of [nextSibling]) is an [option]; [?.] and [??] look
    at it without throwing, a plain [.] or [[ ]] is [member] and
    throws. *)
Module Checked.

Inductive outcome (A : Type) : Type :=
| Done (value : A)
| Thrown (error : string).
Arguments Done {A} value.
Arguments Thrown {A} error.

Definition bind {A B : Type} (c : outcome A) (k : A -> outcome B) : outcome B :=
  match c with
  | Done a => k a
  | Thrown e => Thrown e
  end.

#[local] Notation "x <- c ;; k" := (bind c (fun x => k))
  (at level 61, c at next level, right associativity).

(** [x.p], [x[i]] or [x.f()] for an [x] that may be null. *)
Definition member {A : Type} (x : option A) : outcome A :=
  match x with
  | Some v => Done v
  | None => Thrown "TypeError"
  end.

(** [!x] for an [x] that is an object or null. *)
Definition isNull {A : Type} (x : option A) : bool :=
  match x with
  | Some _ => false
  | None => true
  end.

(** [list.forEach(f)] for a callback that pushes what it returns. *)
Fixpoint forEach {A B : Type} (f : A -> outcome (list B)) (l : list A)
  : outcome (list B) :=
  match l with
  | [] => Done []
  | x :: l' =>
      pushed <- f x ;;
      rest <- forEach f l' ;;
      Done (pushed ++ rest)%list
  end.

Definition parseStopsAway (distanceText : string) : outcome string :=
  let stopsMatch := exec true stopsRe distanceText in
  if negb (isNull stopsMatch) then
    m <- member stopsMatch ;;
    Done (at_ m 1 ++ " stops away")
  else if includes (toLowerCase distanceText) "approaching" then Done "Approaching"
  else
    let milesMatch := exec true milesRe distanceText in
    if negb (isNull milesMatch) then
      m <- member milesMatch ;;
      let miles := parseFloat (at_ m 1) in
      let stops := Num.max (ofZ 1) (Num.round (mul miles (ofZ 8))) in
      Done ("~" ++ toString stops ++ " stops away")
    else Done distanceText.

(** The [while (node)] loop: [node] is the sibling at the head of
    [sibs], null when there is none left. *)
Fixpoint firstText (sibs : list node) : outcome (option string) :=
  let node := hd_error sibs in
  match sibs with
  | [] => Done None
  | _ :: rest =>
      content <- (n <- member node ;; Done (textContent n)) ;;
      let text := option_map trim content in
      if orDefault (option_map truthy text) false then Done text
      else
        _ <- member node ;;
        firstText rest
  end.

Fixpoint scanHeadings (h3s : list handle) : outcome string :=
  match h3s with
  | [] => Done EmptyString
  | h3 :: rest =>
      if orDefault (option_map (fun t => includes t "Bus Stop:")
                               (textContent (self h3))) false
      then
        found <- firstText (following h3) ;;
        match found with
        | Some text => Done text
        | None => scanHeadings rest
        end
      else scanHeadings rest
  end.

Definition parseStopName (doc : document) : outcome string :=
  scanHeadings (docQuerySelectorAll (ByTag "h3") doc).

(** The callback of [ols.forEach]. *)
Definition parseList (ol : handle) : outcome (list BusArrival) :=
  let li := querySelector (ByTag "li") ol in
  if isNull li then Done []
  else
    minutesEl <- (el <- member li ;; Done (querySelector (ByTag "strong") el)) ;;
    let minutes :=
      orDefault (match minutesEl with
                 | Some el => option_map trim (textContent (self el))
                 | None => None
                 end) EmptyString in
    vehicleEl <- (el <- member li ;; Done (querySelector (ByTag "small") el)) ;;
    let vehicleId :=
      orDefault (match vehicleEl with
                 | Some el =>
                     option_map (fun t => replace (trim t) "Vehicle " EmptyString)
                                (textContent (self el))
                 | None => None
                 end) EmptyString in
    content <- (el <- member li ;; Done (textContent (self el))) ;;
    let fullText := orDefault content EmptyString in
    let distanceMatch := exec false distanceRe fullText in
    let rawDistance :=
      orDefault (match distanceMatch with
                 | Some m => option_map trim (group 1 m)
                 | None => None
                 end) EmptyString in
    stopsAway <- parseStopsAway rawDistance ;;
    Done [{| minutes := minutes;
             minutesNum := parseMinutesNum minutes;
             stopsAway := stopsAway;
             vehicleId := vehicleId |}].

(** The callback of [directions.forEach]. *)
Definition parseDirection (dir : handle) : outcome (list BusRoute) :=
  let headerEl := querySelector (Descendant "p" "strong") dir in
  if isNull headerEl then Done []
  else
    content <- (el <- member headerEl ;; Done (textContent (self el))) ;;
    let headerText := orDefault (option_map trim content) EmptyString in
    let match_ := exec false headerRe headerText in
    if isNull match_ then Done []
    else
      route <- (m <- member match_ ;; Done (at_ m 1)) ;;
      direction <- (m <- member match_ ;; Done (at_ m 2)) ;;
      let ols := querySelectorAll (ByTag "ol") dir in
      arrivals <- forEach parseList ols ;;
      Done [{| route := route; direction := direction; arrivals := arrivals |}].

Section Parser.
Variable parseFromString : string -> document.

Definition parseBusData (html : string) : outcome StopSnapshot :=
  let doc := parseFromString html in
  stopName <- parseStopName doc ;;
  let directions := docQuerySelectorAll (ByClass "directionAtStop") doc in
  routes <- forEach parseDirection directions ;;
  Done {| stopName := stopName; routes := routes |}.
End Parser.

End Checked.

Definition sampleItem : node :=
  Element "li" []
    [Element "strong" [] [Text "3 min"];
     Text "utes, 2 stops away, ";
     Element "small" [] [Text "Vehicle 1234"]].

Definition sampleDocument : document :=
  {| quirksMode := false;
     roots :=
       [Element "html" []
          [Element "head" [] [];
           Element "body" []
             [Element "div" ["directionAtStop"]
                [Element "p" [] [Element "strong" [] [Text "M101 Southbound"]];
                 Element "ol" [] [sampleItem]]]]] |}.

(** A handle on a node that stands alone. *)
Definition alone (n : node) : handle :=
  {| inQuirks := false; ancestors := []; self := n; following := [] |}.

(** A block whose header is the lone token [M101]. *)
Definition loneBlock : node :=
  Element "div" ["directionAtStop"]
    [Element "p" [] [Element "strong" [] [Text "M101"]];
     Element "ol" [] [sampleItem]].

Definition loneDocument : document :=
  {| quirksMode := false;
     roots := [Element "html" [] [Element "body" [] [loneBlock]]] |}.

(** An item whose text says [Minutes] with a capital. *)
Definition capitalItem : node :=
  Element "li" []
    [Element "strong" [] [Text "3 Min"];
     Text "utes, 2 stops away"].

(** A block with a header, an ordered list without items, and one with
    two items. *)
Definition mixedBlock : node :=
  Element "div" ["directionAtStop"]
    [Element "p" [] [Element "strong" [] [Text "M102 to Harlem"]];
     Element "ol" [] [];
     Element "ol" []
       [Element "li" [] [Element "strong" [] [Text "7 min"]];
        Element "li" [] [Element "strong" [] [Text "9 min"]]]].

(** A block with a header and no ordered list. *)
Definition quietBlock : node :=
  Element "div" ["directionAtStop"]
    [Element "p" [] [Element "strong" [] [Text "M103 Downtown"]];
     Element "p" [] [Text "No buses en-route"]].

Definition quietDocument : document :=
  {| quirksMode := false;
     roots := [Element "html" [] [Element "body" [] [quietBlock]]] |}.




(** A block whose class is written in capitals, in a document of the
    given mode. *)
Definition shoutedDocument (quirks : bool) : document :=
  {| quirksMode := quirks;
     roots := [Element "html" []
                 [Element "body" []
                    [Element "div" ["DIRECTIONATSTOP"]
                       [Element "p" [] [Element "strong" [] [Text "M103 Downtown"]]]]]] |}.

(* ===================================================================== *)
(** * The refresh controller ([fetchBusData]) *)
(* ===================================================================== *)

Module Controller.
Local Open Scope Z_scope.

(** The promise of a [request] body, by the order of creation. *)
Definition promise := nat.

(** What a rejection carries, as far as [e instanceof Error] and
    [e.message] can tell. *)
Inductive thrown : Type :=
| ErrorObject (message : string)
| OtherValue.

(** The [await] a [request] body is suspended at. *)
Inductive awaiting : Type :=
| AtFetch     (* await fetch(...)  *)
| AtText.     (* await res.text()  *)

(** What the event loop delivers to the component. *)
Inductive event : Type :=
| Call (stopCode : option string) (now : Z)
    (* fetchBusData() of the closure over [stopCode]; Date.now() = now *)
| FetchFulfilled (p : promise) (ok : bool) (status : Z)
| FetchRejected (p : promise) (e : thrown)
| TextFulfilled (p : promise) (html : string) (date : Z)
| TextRejected (p : promise) (e : thrown)
| Resumed (p : promise).
    (* the call that awaits [request] p goes on after its [await] *)

(** What a call of [fetchBusData] resolves with. *)
Inductive returned : Type :=
| Undefined                 (* a bare [return] *)
| Existing (p : promise)    (* return inFlightRequestRef.current *)
| Awaited (p : promise).    (* the call created [p] and awaits it *)

Inductive effect : Type :=
| Fetch (url : string)
| Return (r : returned).

Definition isFetch (e : effect) : bool :=
  match e with Fetch _ => true | Return _ => false end.

Definition fetchCount (effs : list effect) : nat :=
  List.length (filter isFetch effs).

(** [!stopCode] is false. *)
Definition present (stopCode : option string) : bool :=
  match stopCode with
  | Some c => truthy c
  | None => false
  end.

Definition urlOf (stopCode : option string) : string :=
  "/api/bustime?q=" ++ orDefault stopCode "undefined".

(** [e instanceof Error ? e.message : 'Failed to fetch'] *)
Definition messageOf (e : thrown) : string :=
  match e with
  | ErrorObject m => m
  | OtherValue => "Failed to fetch"
  end.

(** [new Error(`HTTP ${res.status}`)] *)
Definition httpError (status : Z) : thrown :=
  ErrorObject ("HTTP " ++ toString (ofZ status)).

Section Component.
(** From [./refreshPolicy]. *)
Variable MIN_REQUEST_GAP_MS : Z.
(** What the page keeps of a parsed response ([stopName] and [routes]
    on the stop page, [routes] on the home page) and its parser. *)
Variable Data : Type.
Variable parse : string -> Data.

Record state : Type := {
  (* useState *)
  snapshot : Data;
  lastUpdated : option Z;
  loading : bool;
  isRefreshing : bool;
  nextAllowedRefreshAt : Z;
  error : option string;
  (* useRef *)
  lastRequestAtRef : Z;
  inFlightRequestRef : option promise;
  (* the suspended [request] bodies, the calls suspended at
     [await request], and the next promise *)
  requests : list (promise * awaiting);
  callers : list promise;
  fresh : promise
}.

Definition initial (d : Data) : state :=
  {| snapshot := d; lastUpdated := None; loading := true;
     isRefreshing := false; nextAllowedRefreshAt := 0; error := None;
     lastRequestAtRef := 0; inFlightRequestRef := None;
     requests := []; callers := []; fresh := O |}.

Definition pendingAt (p : promise) (a : awaiting) (s : state) : bool :=
  existsb (fun r => Nat.eqb (fst r) p &&
                    match snd r, a with
                    | AtFetch, AtFetch | AtText, AtText => true
                    | _, _ => false
                    end) (requests s).

Definition pending (p : promise) (s : state) : bool :=
  existsb (fun r => Nat.eqb (fst r) p) (requests s).

Definition without (p : promise) (rs : list (promise * awaiting)) :=
  filter (fun r => negb (Nat.eqb (fst r) p)) rs.

(** The part of [fetchBusData] after the two guards, up to
    [await request]. *)
Definition issue (now : Z) (s : state) : state :=
  let p := fresh s in
  {| snapshot := snapshot s; lastUpdated := lastUpdated s;
     loading := loading s;
     isRefreshing := true;
     nextAllowedRefreshAt := now + MIN_REQUEST_GAP_MS;
     error := error s;
     lastRequestAtRef := now;
     inFlightRequestRef := Some p;
     requests := (p, AtFetch) :: requests s;
     callers := p :: callers s;
     fresh := S p |}.

(** [catch] then [finally] of the request body [p]. *)
Definition failed (p : promise) (e : thrown) (s : state) : state :=
  {| snapshot := snapshot s; lastUpdated := lastUpdated s;
     loading := false;
     isRefreshing := false;
     nextAllowedRefreshAt := nextAllowedRefreshAt s;
     error := Some (messageOf e);
     lastRequestAtRef := lastRequestAtRef s;
     inFlightRequestRef := inFlightRequestRef s;
     requests := without p (requests s);
     callers := callers s;
     fresh := fresh s |}.

(** The rest of the [try] block after [res.text()], then [finally]. *)
Definition succeeded (p : promise) (html : string) (date : Z) (s : state) : state :=
  {| snapshot := parse html; lastUpdated := Some date;
     loading := false;
     isRefreshing := false;
     nextAllowedRefreshAt := nextAllowedRefreshAt s;
     error := None;
     lastRequestAtRef := lastRequestAtRef s;
     inFlightRequestRef := inFlightRequestRef s;
     requests := without p (requests s);
     callers := callers s;
     fresh := fresh s |}.

(** [res.ok] held: the body goes on to [await res.text()]. *)
Definition readBody (p : promise) (s : state) : state :=
  {| snapshot := snapshot s; lastUpdated := lastUpdated s;
     loading := loading s; isRefreshing := isRefreshing s;
     nextAllowedRefreshAt := nextAllowedRefreshAt s; error := error s;
     lastRequestAtRef := lastRequestAtRef s;
     inFlightRequestRef := inFlightRequestRef s;
     requests := map (fun r => if Nat.eqb (fst r) p then (p, AtText) else r)
                     (requests s);
     callers := callers s;
     fresh := fresh s |}.

(** The [finally] after [await request]. *)
Definition release (p : promise) (s : state) : state :=
  {| snapshot := snapshot s; lastUpdated := lastUpdated s;
     loading := loading s; isRefreshing := isRefreshing s;
     nextAllowedRefreshAt := nextAllowedRefreshAt s; error := error s;
     lastRequestAtRef := lastRequestAtRef s;
     inFlightRequestRef := None;
     requests := requests s;
     callers := filter (fun q => negb (Nat.eqb q p)) (callers s);
     fresh := fresh s |}.

(** One turn of the event loop; [None] when the event cannot occur in
    this state (nothing is suspended where it would resume). *)
Definition step (ev : event) (s : state) : option (state * list effect) :=
  match ev with
  | Call stopCode now =>
      if negb (present stopCode) then Some (s, [Return Undefined])
      else
        match inFlightRequestRef s with
        | Some p => Some (s, [Return (Existing p)])
        | None =>
            if now - lastRequestAtRef s <? MIN_REQUEST_GAP_MS
            then Some (s, [Return Undefined])
            else Some (issue now s,
                       [Fetch (urlOf stopCode); Return (Awaited (fresh s))])
        end
  | FetchFulfilled p ok status =>
      if pendingAt p AtFetch s then
        if negb ok then Some (failed p (httpError status) s, [])
        else Some (readBody p s, [])
      else None
  | FetchRejected p e =>
      if pendingAt p AtFetch s then Some (failed p e s, []) else None
  | TextFulfilled p html date =>
      if pendingAt p AtText s then Some (succeeded p html date s, []) else None
  | TextRejected p e =>
      if pendingAt p AtText s then Some (failed p e s, []) else None
  | Resumed p =>
      if existsb (Nat.eqb p) (callers s) && negb (pending p s)
      then Some (release p s, [])
      else None
  end.

Fixpoint run (evs : list event) (s : state) : option (state * list effect) :=
  match evs with
  | [] => Some (s, [])
  | ev :: evs' =>
      match step ev s with
      | None => None
      | Some (s1, effs1) =>
          match run evs' s1 with
          | None => None
          | Some (s2, effs2) => Some (s2, (effs1 ++ effs2)%list)
          end
      end
  end.

(** The states the component can be in, from its mount with data [d]. *)
Definition reachable (d : Data) (s : state) : Prop :=
  exists evs effs, run evs (initial d) = Some (s, effs).

(** The number of fetch operations under way. *)
Definition outstanding (s : state) : nat := List.length (requests s).

End Component.

Arguments snapshot {Data} _.
Arguments lastUpdated {Data} _.
Arguments loading {Data} _.
Arguments isRefreshing {Data} _.
Arguments nextAllowedRefreshAt {Data} _.
Arguments error {Data} _.
Arguments lastRequestAtRef {Data} _.
Arguments inFlightRequestRef {Data} _.
Arguments requests {Data} _.
Arguments callers {Data} _.
Arguments fresh {Data} _.
Arguments initial {Data} d.
Arguments pendingAt {Data} p a s.
Arguments pending {Data} p s.
Arguments issue MIN_REQUEST_GAP_MS {Data} now s.
Arguments failed {Data} p e s.
Arguments succeeded {Data} parse p html date s.
Arguments readBody {Data} p s.
Arguments release {Data} p s.
Arguments step MIN_REQUEST_GAP_MS {Data} parse ev s.
Arguments run MIN_REQUEST_GAP_MS {Data} parse evs s.
Arguments reachable MIN_REQUEST_GAP_MS {Data} parse d s.
Arguments outstanding {Data} s.

End Controller.

(* ===================================================================== *)
(** * The two pages *)
(* ===================================================================== *)

(** [useState('')] and [useState<BusRoute[]>([])]. *)
Definition emptySnapshot : StopSnapshot := {| stopName := EmptyString; routes := [] |}.

(** The stop the home page asks for. *)
Definition STOP_CODE : string := "402854".

(** [StopPage] keeps [stopName] and [routes]; its calls carry the
    [stopCode] of the route. *)
Definition StopPage_initial : Controller.state StopSnapshot :=
  Controller.initial emptySnapshot.

(** [Home] keeps [routes]; it has no [stopCode] guard and asks for
    [STOP_CODE], which is what a call with [Some STOP_CODE] does. *)
Definition Home_initial : Controller.state (list Home.BusRoute) :=
  Controller.initial [].

(* ===================================================================== *)
(** * Vocabulary of the statements *)
(* ===================================================================== *)

(** [t] occurs in [s]. *)
Definition occursIn (t s : string) : Prop :=
  exists pre post, s = pre ++ t ++ post.

(** [w] (in lower case) occurs in [s], letter case ignored. *)
Definition occursIgnoringCase (w s : string) : Prop :=
  exists pre mid post, s = pre ++ mid ++ post /\ toLowerCase mid = w.

Definition isSuffix (s' s : string) : Prop :=
  exists pre, s = pre ++ s'.

(** No white space anywhere in the string: a lone token, or nothing. *)
Fixpoint noWhiteSpace (s : string) : bool :=
  match s with
  | EmptyString => true
  | String c r => negb (isWhiteSpace c) && noWhiteSpace r
  end.

(** Group [n] takes part in every match of [r]. *)
Fixpoint binds (n : nat) (r : regex) : bool :=
  match r with
  | Group m r' => Nat.eqb n m || binds n r'
  | Seq r1 r2 => binds n r1 || binds n r2
  | Alt r1 r2 => binds n r1 && binds n r2
  | _ => false
  end.

Definition bound (n : nat) (cs : captures) : bool :=
  match capture n cs with Some _ => true | None => false end.

(** What a matcher for [r] promises of a success: the continuation
    succeeded on a suffix, with every earlier capture kept and the groups
    [r] binds captured. *)
Definition Sound (f : string -> captures -> cont -> option result)
           (r : regex) : Prop :=
  forall s cs k res,
    f s cs k = Some res ->
    exists s' cs',
      k s' cs' = Some res /\ isSuffix s' s /\
      (forall n, bound n cs || binds n r = true -> bound n cs' = true).

(** An element with no descendant for the selector. *)
Definition lacks (sel : selector) (h : handle) : Prop :=
  querySelectorAll sel h = [].

(** The refs and the suspended bodies agree: with no request in
    flight nothing is suspended; with request [p] in flight its creator
    is the one suspended call, and its body is suspended or finished. *)
Definition Coherent {Data : Type} (s : Controller.state Data) : Prop :=
  match Controller.inFlightRequestRef s with
  | None => Controller.requests s = [] /\ Controller.callers s = []
  | Some p =>
      Controller.callers s = [p] /\
      (Controller.requests s = [] \/
       exists a, Controller.requests s = [(p, a)])
  end.

Definition isCall (ev : Controller.event) : bool :=
  match ev with Controller.Call _ _ => true | _ => false end.


(** The stop page after one refresh issued at [t0] that failed with [e]
    and was released. *)
Definition afterFailure (gap t0 : Z) (e : Controller.thrown)
  : Controller.state StopSnapshot :=
  Controller.release O
    (Controller.failed O e
       (Controller.issue gap t0 (Controller.initial emptySnapshot))).

(* ===================================================================== *)
(** * What the pages show *)
(* ===================================================================== *)

(** [x - y] and [x < 0] on numbers. *)
Definition sub (x y : number) : number := SFsub Num.prec Num.emax x y.
Definition negative (x : number) : bool := SFltb x (S754_zero false).

(** [Array.prototype.sort(cmp)].  The comparators of the pages are
    consistent (no rank is NaN), and for a consistent comparator the
    standard fixes the result: the stable sorted arrangement, which
    insertion from the right computes.  [x] goes after the elements that
    compare below it and before the rest. *)
Fixpoint insertSorted {A : Type} (cmp : A -> A -> number) (x : A) (l : list A)
  : list A :=
  match l with
  | [] => [x]
  | y :: l' => if negative (cmp y x) then y :: insertSorted cmp x l' else x :: l
  end.

Fixpoint sortBy {A : Type} (cmp : A -> A -> number) (l : list A) : list A :=
  match l with
  | [] => []
  | x :: l' => insertSorted cmp x (sortBy cmp l')
  end.

(** [arrivals[0].minutesNum]; the comparator is only called on routes
    that passed [arrivals.length > 0]. *)
Definition firstRankOf (l : list BusArrival) : number :=
  match l with
  | a :: _ => minutesNum a
  | [] => NaN
  end.

Definition nonEmpty {A : Type} (l : list A) : bool :=
  match l with [] => false | _ :: _ => true end.

(** [(a, b) => a.arrivals[0].minutesNum - b.arrivals[0].minutesNum] *)
Definition bySoonest (a b : BusRoute) : number :=
  sub (firstRankOf (arrivals a)) (firstRankOf (arrivals b)).

Definition withArrivals (routes : list BusRoute) : list BusRoute :=
  sortBy bySoonest (filter (fun r => nonEmpty (arrivals r)) routes).

Definition noArrivals (routes : list BusRoute) : list BusRoute :=
  filter (fun r => negb (nonEmpty (arrivals r))) routes.

(** The cards of the stop page, in the order they are drawn. *)
Definition StopPage_cards (routes : list BusRoute) : list BusRoute :=
  (withArrivals routes ++ noArrivals routes)%list.

Definition Home_bySoonest (a b : Home.BusRoute) : number :=
  sub (firstRankOf (Home.arrivals a)) (firstRankOf (Home.arrivals b)).

Definition Home_withArrivals (routes : list Home.BusRoute) : list Home.BusRoute :=
  sortBy Home_bySoonest (filter (fun r => nonEmpty (Home.arrivals r)) routes).

Definition ALL_ROUTES : list string := ["M101"; "M102"; "M103"].

(** [ALL_ROUTES.filter((name) => !activeRouteNames.has(name))] *)
Definition emptyRoutes (routes : list Home.BusRoute) : list string :=
  let activeRouteNames := map Home.route (Home_withArrivals routes) in
  filter (fun name => negb (existsb (String.eqb name) activeRouteNames)) ALL_ROUTES.

(** The route names on the cards of the home page, in the order they
    are drawn: none while [loading] (the page shows [Loading...]), then
    the routes with arrivals followed by the empty cards. *)
Definition Home_cards (loading : bool) (routes : list Home.BusRoute) : list string :=
  if loading then []
  else (map Home.route (Home_withArrivals routes) ++ emptyRoutes routes)%list.

(** [Math.max(0, Math.ceil((nextAllowedRefreshAt - nowMs) / 1000))].
    The times are whole milliseconds; below 2^53 the double quotient has
    the ceiling of the exact one. *)
Definition refreshCooldownSeconds (nextAllowedRefreshAt nowMs : Z) : Z :=
  Z.max 0 (- ((- (nextAllowedRefreshAt - nowMs)) / 1000)).

(** [isRefreshing || refreshCooldownSeconds > 0]: the refresh button is
    disabled. *)
Definition refreshLocked {Data : Type} (s : Controller.state Data) (nowMs : Z) : bool :=
  Controller.isRefreshing s
  || (0 <? refreshCooldownSeconds (Controller.nextAllowedRefreshAt s) nowMs)%Z.

(** [handleGo] of the home page: the path it navigates to, if it does. *)
Definition handleGo (stopCode : string) : option string :=
  let trimmed := trim stopCode in
  if negb (truthy trimmed) then None
  else Some ("/stop/" ++ trimmed).

(* ===================================================================== *)
(** * The proxy ([server.ts]) and the development proxy ([vite.config.ts]) *)
(* ===================================================================== *)

Module Proxy.

(** The characters [encodeURIComponent] leaves as they are. *)
Definition isUnreserved (c : ascii) : bool :=
  let n := code c in
  ((48 <=? n) && (n <=? 57) || (65 <=? n) && (n <=? 90)
   || (97 <=? n) && (n <=? 122))%N
  || existsb (Ascii.eqb c) ["-"; "_"; "."; "!"; "~"; "*"; "'"; "("; ")"]%char.

Definition hexDigit (n : N) : ascii :=
  if (n <? 10)%N then ascii_of_N (48 + n) else ascii_of_N (55 + n).

(** [%XX] for one octet. *)
Definition escapeOctet (b : N) : string :=
  String "%" (String (hexDigit (b / 16)) (String (hexDigit (b mod 16)) EmptyString)).

(** A code unit below 128 is one octet of UTF-8, one from 128 to 255 is
    two. *)
Definition encodeUnit (c : ascii) : string :=
  let n := code c in
  if isUnreserved c then String c EmptyString
  else if (n <? 128)%N then escapeOctet n
  else escapeOctet (192 + n / 64) ++ escapeOctet (128 + n mod 64).

Fixpoint encodeURIComponent (s : string) : string :=
  match s with
  | EmptyString => EmptyString
  | String c r => encodeUnit c ++ encodeURIComponent r
  end.

(** What the handler of [/api/bustime] does with the [q] of the query
    (absent, or a string). *)
Inductive action : Type :=
| Reply (status : Z) (body : string)
| Relay (url : string).   (* fetch [url], send its text *)

Definition upstreamUrl (query : string) : string :=
  "https://bustime.mta.info/m/?q=" ++ encodeURIComponent query.

Definition handle (q : option string) : action :=
  match q with
  | None => Reply 400 "Missing q parameter"
  | Some query =>
      if negb (truthy query) then Reply 400 "Missing q parameter"
      else Relay (upstreamUrl query)
  end.

(** [str.replace(re, rep)] for a pattern without the [g] flag and a
    replacement without [$]. *)
Definition replaceRe (icase : bool) (r : regex) (s rep : string) : string :=
  match exec icase r s with
  | None => s
  | Some m =>
      take (index m) s ++ rep ++ drop (index m + String.length (whole m)) s
  end.

(** [/^\/api\/bustime/] *)
Definition apiRe : regex := Seq Bol (Lit "/api/bustime").

(** [rewrite: (path) => path.replace(/^\/api\/bustime/, '/m/')] *)
Definition rewrite (path : string) : string :=
  replaceRe false apiRe path "/m/".

End Proxy.

(* ===================================================================== *)
(** * Vocabulary of the further statements *)
(* ===================================================================== *)

(** Every character of the string passes [p]. *)
Fixpoint allChars (p : ascii -> bool) (s : string) : bool :=
  match s with
  | EmptyString => true
  | String c r => p c && allChars p r
  end.

(** The first character, if any, is no white space. *)
Definition headClean (s : string) : bool :=
  match s with
  | EmptyString => true
  | String c _ => negb (isWhiteSpace c)
  end.

(** No white space at the end: an all-white tail is empty. *)
Definition tailClean (t : string) : Prop :=
  forall x y, t = x ++ y -> allChars isWhiteSpace y = true -> y = EmptyString.

(** A character of a stops-away count: [[\d<]]. *)
Definition isCount (c : ascii) : bool :=
  existsb (fun a => atomMatches true a c) [ADigit; AChar "<"].

(** No card is followed by one the comparator puts before it. *)
Fixpoint ascending {A : Type} (cmp : A -> A -> number) (l : list A) : Prop :=
  match l with
  | [] => True
  | a :: l' =>
      match l' with
      | [] => True
      | b :: _ => negative (cmp b a) = false
      end /\ ascending cmp l'
  end.

(** A character that cannot end or extend the [q] of a URL: one that
    [encodeURIComponent] leaves alone, or the [%] of an escape. *)
Definition isUrlSafe (c : ascii) : bool :=
  Proxy.isUnreserved c || Ascii.eqb c "%".

(** A route of the stop page as the home page keeps it. *)
Definition withoutDirection (r : BusRoute) : Home.BusRoute :=
  {| Home.route := route r; Home.arrivals := arrivals r |}.

(** The next character, if any, does not pass [p]: a greedy run of
    [p] stops here. *)
Definition stopsAt (p : ascii -> bool) (tail : string) : bool :=
  match tail with
  | EmptyString => true
  | String c _ => negb (p c)
  end.

(** What follows the first line. *)
Fixpoint restLine (s : string) : string :=
  match s with
  | EmptyString => EmptyString
  | String c r => if isLineTerminator c then s else restLine r
  end.

(** The text up to the first line terminator. *)
Fixpoint firstLine (s : string) : string :=
  match s with
  | EmptyString => EmptyString
  | String c r => if isLineTerminator c then EmptyString else String c (firstLine r)
  end.

(** The texts a pattern can consume (anchors aside). *)
Inductive Lang (icase : bool) : regex -> string -> Prop :=
| L_Eps : Lang icase Eps EmptyString
| L_Chr c x : charEq icase c x = true -> Lang icase (Chr c) (String x EmptyString)
| L_Dot x : isLineTerminator x = false -> Lang icase Dot (String x EmptyString)
| L_Space x : isWhiteSpace x = true -> Lang icase Space (String x EmptyString)
| L_NonSpace x : isWhiteSpace x = false -> Lang icase NonSpace (String x EmptyString)
| L_Class ms x :
    existsb (fun a => atomMatches icase a x) ms = true ->
    Lang icase (Class ms) (String x EmptyString)
| L_Bol : Lang icase Bol EmptyString
| L_Eol : Lang icase Eol EmptyString
| L_Seq r1 r2 a b :
    Lang icase r1 a -> Lang icase r2 b -> Lang icase (Seq r1 r2) (a ++ b)
| L_AltL r1 r2 a : Lang icase r1 a -> Lang icase (Alt r1 r2) a
| L_AltR r1 r2 a : Lang icase r2 a -> Lang icase (Alt r1 r2) a
| L_Star0 g r : Lang icase (Star g r) EmptyString
| L_StarS g r a b :
    Lang icase r a -> Lang icase (Star g r) b -> Lang icase (Star g r) (a ++ b)
| L_Group n r a : Lang icase r a -> Lang icase (Group n r) a.

(** Group [n] occurs in [r]. *)
Fixpoint mentions (n : nat) (r : regex) : bool :=
  match r with
  | Group m r' => Nat.eqb n m || mentions n r'
  | Seq r1 r2 | Alt r1 r2 => mentions n r1 || mentions n r2
  | Star _ r' => mentions n r'
  | _ => false
  end.

(** What a matcher for [r] promises of a success, in full: it consumed
    a text of [r], the continuation succeeded on the rest, and the
    groups outside [r] are as they were. *)
Definition Exact (icase : bool)
           (f : string -> captures -> cont -> option result) (r : regex) : Prop :=
  forall s cs k res,
    f s cs k = Some res ->
    exists pre s' cs',
      s = pre ++ s' /\ Lang icase r pre /\ k s' cs' = Some res /\
      (forall n, mentions n r = false -> capture n cs' = capture n cs).

(** Two letters that differ at most in case, and two such words. *)
Fixpoint sameWord (p w : string) : bool :=
  match p, w with
  | EmptyString, EmptyString => true
  | String a p', String b w' => charEq true a b && sameWord p' w'
  | _, _ => false
  end.

(** The times at which the calls of a run issued a fetch. *)
Fixpoint issuedAt {Data : Type} (gap : Z) (parse : string -> Data)
         (evs : list Controller.event) (s : Controller.state Data) : list Z :=
  match evs with
  | [] => []
  | ev :: evs' =>
      match Controller.step gap parse ev s with
      | None => []
      | Some (s1, effs) =>
          match ev with
          | Controller.Call _ now =>
              if Nat.ltb 0 (Controller.fetchCount effs)
              then now :: issuedAt gap parse evs' s1
              else issuedAt gap parse evs' s1
          | _ => issuedAt gap parse evs' s1
          end
      end
  end.

(** Consecutive times are at least [gap] apart. *)
Fixpoint spaced (gap : Z) (ts : list Z) : Prop :=
  match ts with
  | [] => True
  | t :: ts' =>
      match ts' with
      | [] => True
      | t' :: _ => (gap <= t' - t)%Z
      end /\ spaced gap ts'
  end.

(** More of what the state keeps true, for a page that started with
    data [d]: the spinner flag says whether a body is suspended; the
    next allowed time is the last request time plus the gap once a
    request was issued; and until a request has completed the page is
    loading with its first data, no error and no update time. *)
Definition Settled {Data : Type} (gap : Z) (d : Data) (s : Controller.state Data)
  : Prop :=
  Coherent s
  /\ Controller.isRefreshing s = nonEmpty (Controller.requests s)
  /\ (Controller.nextAllowedRefreshAt s
      = (Controller.lastRequestAtRef s + gap)%Z
      \/ (Controller.nextAllowedRefreshAt s = 0%Z
          /\ Controller.lastRequestAtRef s = 0%Z))
  /\ (Controller.loading s = true ->
      Controller.snapshot s = d /\ Controller.error s = None
      /\ Controller.lastUpdated s = None).

(** The events that complete the request body [p] suspended at [a]. *)
Definition completes (p : Controller.promise) (a : Controller.awaiting)
           (ev : Controller.event) : bool :=
  match ev, a with
  | Controller.FetchRejected q _, Controller.AtFetch
  | Controller.FetchFulfilled q false _, Controller.AtFetch
  | Controller.TextRejected q _, Controller.AtText
  | Controller.TextFulfilled q _ _, Controller.AtText => Nat.eqb q p
  | _, _ => false
  end.

(* ===================================================================== *)
(** * Strings: occurrence, lower case, white space *)
(* ===================================================================== *)

Lemma app_assoc_s (a b c : string) : (a ++ b) ++ c = a ++ (b ++ c).
Proof. induction a as [|x a IH]; simpl; [reflexivity | now rewrite IH]. Qed.

Lemma length_app_s (a b : string) :
  String.length (a ++ b) = String.length a + String.length b.
Proof. induction a as [|x a IH]; simpl; [reflexivity | now rewrite IH]. Qed.

Lemma isSuffix_refl (s : string) : isSuffix s s.
Proof. now exists EmptyString. Qed.

Lemma isSuffix_trans (a b c : string) : isSuffix a b -> isSuffix b c -> isSuffix a c.
Proof.
  intros [p Hp] [q Hq]. exists (q ++ p). subst. now rewrite app_assoc_s.
Qed.

Lemma isSuffix_tail (c : ascii) (s : string) : isSuffix s (String c s).
Proof. now exists (String c EmptyString). Qed.

Lemma isSuffix_length (a b : string) : isSuffix a b -> String.length a <= String.length b.
Proof. intros [p ->]. rewrite length_app_s. lia. Qed.

Lemma startsWith_app (t post : string) : startsWith t (t ++ post) = true.
Proof.
  induction t as [|c t IH]; simpl; [reflexivity|].
  now rewrite Ascii.eqb_refl, IH.
Qed.

Lemma startsWith_split (t s : string) :
  startsWith t s = true -> exists post, s = t ++ post.
Proof.
  revert s; induction t as [|c t IH]; intros s H; simpl in *.
  - now exists s.
  - destruct s as [|d s]; [discriminate|].
    apply andb_true_iff in H as [Hc Ht].
    apply Ascii.eqb_eq in Hc; subst d.
    destruct (IH _ Ht) as [post ->]. now exists post.
Qed.

Lemma includes_unfold (s t : string) :
  includes s t =
  startsWith t s || match s with EmptyString => false | String _ r => includes r t end.
Proof. destruct s; reflexivity. Qed.

Lemma includes_app (pre t post : string) : includes (pre ++ t ++ post) t = true.
Proof.
  induction pre as [|c pre IH]; simpl.
  - rewrite includes_unfold, startsWith_app. reflexivity.
  - rewrite IH. apply orb_true_r.
Qed.

Lemma includes_split (s t : string) : includes s t = true -> occursIn t s.
Proof.
  induction s as [|c s IH]; intros H; rewrite includes_unfold in H;
    apply orb_true_iff in H as [H|H].
  - destruct (startsWith_split _ _ H) as [post ->]. now exists EmptyString, post.
  - discriminate.
  - destruct (startsWith_split _ _ H) as [post ->]. now exists EmptyString, post.
  - destruct (IH H) as (pre & post & ->). now exists (String c pre), post.
Qed.

Lemma includes_iff (s t : string) : includes s t = true <-> occursIn t s.
Proof.
  split; [apply includes_split|].
  intros (pre & post & ->). apply includes_app.
Qed.

Lemma toLowerCase_app (a b : string) :
  toLowerCase (a ++ b) = toLowerCase a ++ toLowerCase b.
Proof. induction a as [|c a IH]; simpl; [reflexivity | now rewrite IH]. Qed.

Lemma toLowerCase_split (x a b : string) :
  toLowerCase x = a ++ b ->
  exists x1 x2, x = x1 ++ x2 /\ toLowerCase x1 = a /\ toLowerCase x2 = b.
Proof.
  revert x; induction a as [|c a IH]; intros x H; simpl in H.
  - exists EmptyString, x. auto.
  - destruct x as [|d x]; simpl in H; [discriminate|].
    injection H as Hc Hx.
    destruct (IH _ Hx) as (x1 & x2 & -> & H1 & H2).
    exists (String d x1), x2. simpl. now rewrite Hc, H1.
Qed.

Lemma includes_lower_iff (w s : string) :
  includes (toLowerCase s) w = true <-> occursIgnoringCase w s.
Proof.
  rewrite includes_iff. split.
  - intros (pre & post & H).
    apply toLowerCase_split in H as (x1 & x2 & -> & H1 & H2).
    apply toLowerCase_split in H2 as (x3 & x4 & -> & H3 & H4).
    now exists x1, x3, x4.
  - intros (pre & mid & post & -> & H).
    exists (toLowerCase pre), (toLowerCase post).
    now rewrite !toLowerCase_app, H.
Qed.

Lemma noWhiteSpace_app (a b : string) :
  noWhiteSpace (a ++ b) = noWhiteSpace a && noWhiteSpace b.
Proof.
  induction a as [|c a IH]; simpl; [reflexivity|].
  now rewrite IH, andb_assoc.
Qed.

Lemma noWhiteSpace_suffix (s' s : string) :
  isSuffix s' s -> noWhiteSpace s = true -> noWhiteSpace s' = true.
Proof.
  intros [pre ->] H. rewrite noWhiteSpace_app in H.
  now apply andb_true_iff in H.
Qed.

(* ===================================================================== *)
(** * The matcher: what a successful match went through *)
(* ===================================================================== *)

Section MatcherFacts.
Variable icase : bool.
Variable total : nat.

Lemma single_inv (p : ascii -> bool) s cs k res :
  single p s cs k = Some res ->
  exists c r, s = String c r /\ p c = true /\ k r cs = Some res.
Proof.
  destruct s as [|c r]; simpl; [discriminate|].
  destruct (p c) eqn:E; [|discriminate].
  intros H. now exists c, r.
Qed.

Lemma single_Sound (p : ascii -> bool) (r : regex) :
  (forall n, binds n r = false) -> Sound (single p) r.
Proof.
  intros Hb s cs k res H.
  apply single_inv in H as (c & t & -> & _ & H).
  exists t, cs. split; [assumption|]. split; [apply isSuffix_tail|].
  intros n. rewrite Hb, orb_false_r. auto.
Qed.

Lemma rounds_inv (body : string -> captures -> cont -> option result)
      (r : regex) (greedy : bool) (k : cont) :
  Sound body r ->
  forall fuel s cs res,
    rounds body greedy k fuel s cs = Some res ->
    exists s' cs',
      k s' cs' = Some res /\ isSuffix s' s /\
      (forall n, bound n cs = true -> bound n cs' = true).
Proof.
  intros Hbody. induction fuel as [|fuel IH]; intros s cs res H; simpl in H.
  - exists s, cs. auto using isSuffix_refl.
  - assert (Hagain :
      forall res',
        body s cs
          (fun s' cs' =>
             if Nat.ltb (String.length s') (String.length s)
             then rounds body greedy k fuel s' cs' else None) = Some res' ->
        exists s' cs',
          k s' cs' = Some res' /\ isSuffix s' s /\
          (forall n, bound n cs = true -> bound n cs' = true)).
    { intros res' E. apply Hbody in E as (s1 & cs1 & E & Hs1 & Hc1).
      destruct (Nat.ltb _ _); [|discriminate].
      apply IH in E as (s2 & cs2 & E & Hs2 & Hc2).
      exists s2, cs2. split; [assumption|].
      split; [eapply isSuffix_trans; eassumption|].
      intros n Hn. apply Hc2, Hc1. now rewrite Hn. }
    destruct greedy; unfold orElse in H.
    + destruct (body s cs _) as [x|] eqn:E.
      * injection H as ->. now apply Hagain.
      * exists s, cs. auto using isSuffix_refl.
    + destruct (k s cs) as [x|] eqn:E.
      * exists s, cs. injection H as ->. auto using isSuffix_refl.
      * now apply Hagain.
Qed.

Lemma bound_cons (n m : nat) (v : string) (cs : captures) :
  bound n ((m, v) :: cs) = Nat.eqb n m || bound n cs.
Proof. unfold bound; simpl. now destruct (Nat.eqb n m). Qed.

Lemma rmatch_Sound (r : regex) : Sound (rmatch icase total r) r.
Proof.
  induction r as [| c | | | | ms | | | r1 IH1 r2 IH2 | r1 IH1 r2 IH2
                 | g r IH | m r IH];
    try (apply single_Sound; reflexivity).
  - (* Eps *)
    intros s cs k res H. exists s, cs. simpl in H.
    split; [assumption|]. split; [apply isSuffix_refl|].
    intros n. now rewrite orb_false_r.
  - (* Bol *)
    intros s cs k res H. simpl in H.
    destruct (Nat.eqb _ _); [|discriminate].
    exists s, cs. split; [assumption|]. split; [apply isSuffix_refl|].
    intros n. now rewrite orb_false_r.
  - (* Eol *)
    intros s cs k res H. simpl in H. destruct s; [|discriminate].
    exists EmptyString, cs. split; [assumption|]. split; [apply isSuffix_refl|].
    intros n. now rewrite orb_false_r.
  - (* Seq *)
    intros s cs k res H. simpl in H.
    apply IH1 in H as (s1 & cs1 & H & Hs1 & Hc1).
    apply IH2 in H as (s2 & cs2 & H & Hs2 & Hc2).
    exists s2, cs2. split; [assumption|].
    split; [eapply isSuffix_trans; eassumption|].
    intros n Hn. simpl in Hn. apply Hc2.
    destruct (binds n r2); [apply orb_true_r|].
    rewrite orb_false_r in *. apply Hc1. assumption.
  - (* Alt *)
    intros s cs k res H. simpl in H. unfold orElse in H.
    destruct (rmatch icase total r1 s cs k) as [x|] eqn:E.
    + injection H as ->. apply IH1 in E as (s1 & cs1 & E & Hs1 & Hc1).
      exists s1, cs1. repeat split; try assumption.
      intros n Hn. apply Hc1. simpl in Hn.
      destruct (bound n cs); [reflexivity|]. simpl in *.
      now apply andb_true_iff in Hn.
    + apply IH2 in H as (s2 & cs2 & H & Hs2 & Hc2).
      exists s2, cs2. repeat split; try assumption.
      intros n Hn. apply Hc2. simpl in Hn.
      destruct (bound n cs); [reflexivity|]. simpl in *.
      now apply andb_true_iff in Hn.
  - (* Star *)
    intros s cs k res H. simpl in H.
    apply (rounds_inv _ _ _ _ IH) in H as (s1 & cs1 & H & Hs1 & Hc1).
    exists s1, cs1. repeat split; try assumption.
    intros n Hn. simpl in Hn. rewrite orb_false_r in Hn. now apply Hc1.
  - (* Group *)
    intros s cs k res H. simpl in H.
    apply IH in H as (s1 & cs1 & H & Hs1 & Hc1).
    eexists s1, _. split; [exact H|]. split; [assumption|].
    intros n Hn. simpl in Hn. rewrite bound_cons.
    destruct (Nat.eqb n m); [reflexivity|]. simpl in *. now apply Hc1.
Qed.

(** A pattern fails where its continuation fails on every suffix. *)
Corollary rmatch_none (r : regex) s cs (k : cont) :
  (forall s' cs', isSuffix s' s -> k s' cs' = None) ->
  rmatch icase total r s cs k = None.
Proof.
  intros Hk. destruct (rmatch icase total r s cs k) as [res|] eqn:E; [|reflexivity].
  apply rmatch_Sound in E as (s' & cs' & E & Hs & _).
  rewrite (Hk _ _ Hs) in E. discriminate.
Qed.

Lemma rmatch_Seq r1 r2 s cs k :
  rmatch icase total (Seq r1 r2) s cs k =
  rmatch icase total r1 s cs (fun s' cs' => rmatch icase total r2 s' cs' k).
Proof. reflexivity. Qed.

(** A pattern that opens with [^] matches at the first index or
    nowhere. *)
Lemma rmatch_Alt r1 r2 s cs k :
  rmatch icase total (Alt r1 r2) s cs k =
  orElse (rmatch icase total r1 s cs k) (rmatch icase total r2 s cs k).
Proof. reflexivity. Qed.

Lemma rmatch_Chr c s cs k :
  rmatch icase total (Chr c) s cs k = single (charEq icase c) s cs k.
Proof. reflexivity. Qed.

Lemma rmatch_Eps s cs k : rmatch icase total Eps s cs k = k s cs.
Proof. reflexivity. Qed.

Lemma rmatch_Bol (r : regex) s cs k :
  rmatch icase total (Seq Bol r) s cs k =
  if Nat.eqb (String.length s) total then rmatch icase total r s cs k else None.
Proof. reflexivity. Qed.

Lemma searchFrom_Bol (r : regex) (s : string) :
  String.length s < total -> searchFrom icase (Seq Bol r) total s = None.
Proof.
  induction s as [|c s IH]; intros Hlen; cbn [searchFrom];
    rewrite rmatch_Bol.
  - destruct (Nat.eqb_spec (String.length EmptyString) total) as [E|E];
      [exfalso; lia | reflexivity].
  - destruct (Nat.eqb_spec (String.length (String c s)) total) as [E|E];
      [exfalso; lia |].
    apply IH. simpl in Hlen. lia.
Qed.

End MatcherFacts.

Lemma exec_Bol_none (icase : bool) (r : regex) (s : string) :
  rmatch icase (String.length s) r s [] (fun s' cs' => Some (s', cs')) = None ->
  exec icase (Seq Bol r) s = None.
Proof.
  intros H. unfold exec.
  destruct s as [|c s]; cbn [searchFrom]; rewrite rmatch_Bol, Nat.eqb_refl, H.
  - reflexivity.
  - apply searchFrom_Bol. simpl. lia.
Qed.

(** Every group a pattern binds is defined in the result of [exec]. *)
Lemma searchFrom_binds (icase : bool) (r : regex) (total n : nat) (s : string)
      (m : matchResult) :
  binds n r = true ->
  searchFrom icase r total s = Some m ->
  exists v, group n m = Some v.
Proof.
  intros Hb. induction s as [|c s IH]; simpl;
    destruct (rmatch icase total r _ [] _) as [[s' cs']|] eqn:E;
    try discriminate; try assumption.
  all: intros H; injection H as <-; unfold group; simpl;
    apply rmatch_Sound in E as (s1 & cs1 & E & _ & Hc);
    injection E as -> ->;
    specialize (Hc n); rewrite Hb, orb_true_r in Hc; specialize (Hc eq_refl);
    unfold bound in Hc; destruct (capture n cs'); [eauto | discriminate].
Qed.

Lemma exec_binds (icase : bool) (r : regex) (n : nat) (s : string) (m : matchResult) :
  binds n r = true -> exec icase r s = Some m -> exists v, group n m = Some v.
Proof. apply searchFrom_binds. Qed.

(* ===================================================================== *)
(** * Literal prefixes and anchored patterns *)
(* ===================================================================== *)

Lemma rmatch_Lit (total : nat) (p s : string) (cs : captures) (k : cont) :
  rmatch false total (Lit p) s cs k =
  if startsWith p s then k (drop (String.length p) s) cs else None.
Proof.
  revert s; induction p as [|c p IH]; intros s.
  - reflexivity.
  - cbn [Lit]. rewrite rmatch_Seq. cbn [rmatch]. unfold single, charEq.
    destruct s as [|d s]; [reflexivity|].
    cbn [startsWith String.length drop].
    destruct (Ascii.eqb c d); [apply IH | reflexivity].
Qed.

(** A case-sensitive pattern that opens with a literal finds nothing in
    a text the literal does not occur in. *)
Lemma searchFrom_Lit_none (p : string) (r : regex) (total : nat) (s : string) :
  includes s p = false -> searchFrom false (Seq (Lit p) r) total s = None.
Proof.
  induction s as [|c s IH]; intros H; rewrite includes_unfold in H;
    apply orb_false_iff in H as [H1 H2]; cbn [searchFrom];
    rewrite rmatch_Seq, rmatch_Lit, H1.
  - reflexivity.
  - now apply IH.
Qed.

Lemma distanceRe_needs_minute (fullText : string) :
  includes fullText "minute" = false -> exec false distanceRe fullText = None.
Proof. intros H. now apply searchFrom_Lit_none. Qed.

(** A text with no white space in it has nothing for [\s] to take after
    the route token. *)
Lemma no_space_to_take (icase : bool) (total : nat) (r rest : regex)
      (s : string) (cs : captures) (k : cont) :
  noWhiteSpace s = true ->
  rmatch icase total (Seq r (Seq Space rest)) s cs k = None.
Proof.
  intros Hs. rewrite rmatch_Seq. apply rmatch_none.
  intros s' cs' Hsuf. rewrite rmatch_Seq. cbn [rmatch]. unfold single.
  pose proof (noWhiteSpace_suffix _ _ Hsuf Hs) as H'.
  destruct s' as [|c s']; [reflexivity|]. simpl in H' |- *.
  apply andb_true_iff in H' as [Hc _].
  now destruct (isWhiteSpace c).
Qed.

Lemma headerRe_lone_token (headerText : string) :
  noWhiteSpace headerText = true -> exec false headerRe headerText = None.
Proof.
  intros H. apply exec_Bol_none.
  change (rmatch false (String.length headerText)
            (Seq (Group 1 (Plus true NonSpace))
               (Seq (Seq Space (Star true Space)) (Seq (Group 2 (Plus true Dot)) Eps)))
            headerText [] (fun s' cs' => Some (s', cs')) = None).
  rewrite rmatch_Seq. apply rmatch_none. intros s' cs' Hsuf.
  rewrite !rmatch_Seq. cbn [rmatch]. unfold single.
  pose proof (noWhiteSpace_suffix _ _ Hsuf H) as H'.
  destruct s' as [|c s']; [reflexivity|]. simpl in H' |- *.
  apply andb_true_iff in H' as [Hc _].
  now destruct (isWhiteSpace c).
Qed.

Lemma Home_headerRe_lone_token (headerText : string) :
  noWhiteSpace headerText = true -> exec false Home.headerRe headerText = None.
Proof.
  intros H. apply exec_Bol_none.
  change (rmatch false (String.length headerText)
            (Seq (Group 1 (Plus true NonSpace)) (Seq Space Eps))
            headerText [] (fun s' cs' => Some (s', cs')) = None).
  now apply no_space_to_take.
Qed.

(* ===================================================================== *)
(** * The extractor: header, lists, items *)
(* ===================================================================== *)

Lemma collect_In {A B : Type} (f : A -> option B) (l : list A) (x : A) (y : B) :
  In x l -> f x = Some y -> In y (collect f l).
Proof.
  induction l as [|a l IH]; simpl; [contradiction|].
  intros [->|Hin] Hf.
  - rewrite Hf. now left.
  - destruct (f a); [right|]; now apply IH.
Qed.

Lemma collect_skip {A B : Type} (f : A -> option B) (before after : list A) (x : A) :
  f x = None ->
  collect f (before ++ x :: after) = (collect f before ++ collect f after)%list.
Proof.
  intros Hx. induction before as [|a l IH]; simpl.
  - now rewrite Hx.
  - destruct (f a); simpl; now rewrite IH.
Qed.

Lemma collect_Forall {A B : Type} (f : A -> option B) (P : B -> Prop) (l : list A) :
  (forall x y, f x = Some y -> P y) -> Forall P (collect f l).
Proof.
  intros H. induction l as [|a l IH]; simpl; [constructor|].
  destruct (f a) eqn:E; [constructor; eauto | assumption].
Qed.

Lemma flat_map_Forall {A B : Type} (f : A -> list B) (P : B -> Prop) (l : list A) :
  (forall x, Forall P (f x)) -> Forall P (flat_map f l).
Proof.
  intros H. induction l as [|a l IH]; simpl; [constructor|].
  apply Forall_app. split; [apply H | assumption].
Qed.

Lemma parseList_first (ol : handle) :
  parseList ol =
  match querySelectorAll (ByTag "li") ol with
  | [] => []
  | li :: _ => [parseItem li]
  end.
Proof.
  unfold parseList, querySelector. now destruct (querySelectorAll _ ol).
Qed.

Lemma parseList_length (ol : handle) : List.length (parseList ol) <= 1.
Proof. unfold parseList. destruct (querySelector _ ol); simpl; lia. Qed.

Lemma parseList_count (ols : list handle) :
  List.length (flat_map parseList ols) =
  List.length (filter (fun ol => match querySelector (ByTag "li") ol with
                                 | Some _ => true | None => false end) ols).
Proof.
  induction ols as [|ol ols IH]; simpl; [reflexivity|].
  rewrite length_app, IH. unfold parseList.
  destruct (querySelector _ ol); reflexivity.
Qed.


Lemma parseDirection_arrivals (dir : handle) (r : BusRoute) :
  parseDirection dir = Some r -> arrivals r = parseLists dir.
Proof.
  unfold parseDirection.
  destruct (querySelector _ dir); [|discriminate].
  destruct (exec _ _ _); [|discriminate].
  now intros [= <-].
Qed.

(** C3 as the specification words it fails on the block with the lone
    header [M101]: that block is skipped on both pages, and the stop page
    returns no route for the document. *)
Lemma lone_header_block_is_dropped :
  option_map headerTextOf
    (querySelector (Descendant "p" "strong") (alone loneBlock)) = Some "M101"
  /\ ~ (exists r, parseDirection (alone loneBlock) = Some r /\ direction r = EmptyString)
  /\ routes (parseDocument loneDocument) = []
  /\ Home.parseDocument loneDocument = [].
Proof.
  split; [reflexivity|]. split; [|split; reflexivity].
  intros [r [H _]]. vm_compute in H. discriminate.
Qed.

(** C3, amended: a direction-at-stop block whose trimmed header text is a
    lone route token (no white space in it, as in [M101]) is skipped: the
    header pattern of either page asks for white space after the token,
    so no entry is made for the block. *)
Theorem lone_token_header_is_skipped (dir headerEl : handle) :
  querySelector (Descendant "p" "strong") dir = Some headerEl ->
  noWhiteSpace (headerTextOf headerEl) = true ->
  parseDirection dir = None
  /\ Home.parseDirection dir = None
  /\ (forall doc before after,
         docQuerySelectorAll (ByClass "directionAtStop") doc
         = (before ++ dir :: after)%list ->
         routes (parseDocument doc)
         = (collect parseDirection before ++ collect parseDirection after)%list
         /\ Home.parseDocument doc
            = (collect Home.parseDirection before
               ++ collect Home.parseDirection after)%list).
Proof.
  intros Hq Hlone.
  assert (H1 : parseDirection dir = None).
  { unfold parseDirection. rewrite Hq. now rewrite headerRe_lone_token. }
  assert (H2 : Home.parseDirection dir = None).
  { unfold Home.parseDirection. rewrite Hq. now rewrite Home_headerRe_lone_token. }
  split; [exact H1|]. split; [exact H2|].
  intros doc before after Hdirs.
  unfold parseDocument, Home.parseDocument. cbn [routes]. rewrite Hdirs.
  split; apply collect_skip; assumption.
Qed.

Lemma lone_token_header_is_skipped_witness :
  parseDirection (alone loneBlock) = None /\
  Home.parseDirection (alone loneBlock) = None.
Proof.
  destruct (lone_token_header_is_skipped (alone loneBlock)
              {| inQuirks := false; ancestors := ["p"; "div"];
                 self := Element "strong" [] [Text "M101"];
                 following := [] |} eq_refl eq_refl) as (H1 & H2 & _).
  split; assumption.
Defined.

(** C5: the sample document (one block headed [M101 Southbound], one
    ordered list whose item reads [3 minutes, 2 stops away, Vehicle 1234]
    with [3 min] emphasized and [Vehicle 1234] in small print) yields
    exactly one route, M101 Southbound, with the one arrival
    [3 min] / 3 / [2 stops away] / [1234], in either mode of the
    document. *)
Theorem sample_document_extraction :
  option_map (fun li => text (self li))
    (querySelector (ByTag "li") (alone (Element "ol" [] [sampleItem])))
    = Some "3 minutes, 2 stops away, Vehicle 1234"
  /\ forall parseFromString html,
       roots (parseFromString html) = roots sampleDocument ->
       routes (parseBusData parseFromString html) =
       [{| route := "M101"; direction := "Southbound";
           arrivals := [{| minutes := "3 min"; minutesNum := ofZ 3;
                           stopsAway := "2 stops away";
                           vehicleId := "1234" |}] |}].
Proof.
  split; [reflexivity|].
  intros parseFromString html H. unfold parseBusData.
  destruct (parseFromString html) as [q r]. cbn [roots] in H. subst r.
  destruct q; vm_compute; reflexivity.
Qed.

Lemma sample_document_extraction_witness :
  routes (parseBusData (fun _ => sampleDocument) "<html>") =
  [{| route := "M101"; direction := "Southbound";
      arrivals := [{| minutes := "3 min"; minutesNum := ofZ 3;
                      stopsAway := "2 stops away";
                      vehicleId := "1234" |}] |}].
Proof.
  apply (proj2 sample_document_extraction (fun _ => sampleDocument) "<html>").
  reflexivity.
Defined.

(** C6: the rank of a minutes text.  A text with [approaching] in it, in
    any letter case, ranks 0; failing that, a text with [<] in it ranks
    0.5; failing both, the rank is the number [parseFloat] reads at the
    head of the text, and 999 when it reads none.  So [Approaching] gives
    0, [<1 min] gives 0.5, [garbage] gives 999 and [7 min] gives 7. *)
Theorem minutes_rank :
  (forall text,
      (occursIgnoringCase "approaching" text -> parseMinutesNum text = ofZ 0) /\
      (~ occursIgnoringCase "approaching" text -> occursIn "<" text ->
       parseMinutesNum text = half) /\
      (~ occursIgnoringCase "approaching" text -> ~ occursIn "<" text ->
       parseMinutesNum text =
       if isNaN (parseFloat text) then ofZ 999 else parseFloat text))
  /\ parseFloat "0" = ofZ 0 /\ parseFloat "0.5" = half
  /\ parseFloat "999" = ofZ 999 /\ parseFloat "7" = ofZ 7
  /\ parseMinutesNum "Approaching" = ofZ 0
  /\ parseMinutesNum "<1 min" = half
  /\ parseMinutesNum "garbage" = ofZ 999
  /\ parseMinutesNum "7 min" = ofZ 7
  /\ parseMinutesNum "approaching, <1 min" = ofZ 0.
Proof.
  split; [|repeat split; vm_compute; reflexivity].
  intros text. unfold parseMinutesNum.
  pose proof (includes_lower_iff "approaching" text) as Ha.
  pose proof (includes_iff text "<") as Hl.
  destruct (includes (toLowerCase text) "approaching");
    destruct (includes text "<"); repeat split; intros;
    try reflexivity;
    try (exfalso; tauto);
    try (exfalso;
         match goal with
         | H : occursIgnoringCase _ _ |- _ => apply Ha in H; discriminate
         | H : occursIn _ _ |- _ => apply Hl in H; discriminate
         end).
Qed.

Lemma minutes_rank_witness :
  parseMinutesNum "Bus APPROACHING" = ofZ 0 /\
  parseMinutesNum "< 1 min" = half /\
  parseMinutesNum "12 min" = parseFloat "12 min".
Proof.
  split; [|split].
  - apply (proj1 (proj1 minutes_rank "Bus APPROACHING")).
    exists "Bus ", "APPROACHING", EmptyString. split; reflexivity.
  - apply (proj1 (proj2 (proj1 minutes_rank "< 1 min"))).
    + intros H. apply includes_lower_iff in H. discriminate.
    + exists EmptyString, " 1 min". reflexivity.
  - apply (proj2 (proj2 (proj1 minutes_rank "12 min"))).
    + intros H. apply includes_lower_iff in H. discriminate.
    + intros H. apply includes_iff in H. discriminate.
Defined.

(** C7: the distance label.  The rules apply in a fixed order and the
    first that matches wins: the stops-away pattern (its digits are
    emitted again), then [approaching] in any letter case, then the miles
    pattern (max(1, round(miles * 8)) stops), then the raw text as it
    is.  So [3 stops away] stays, [2.1 miles away] gives [~17 stops
    away], [0.05 miles away] gives [~1 stops away] and [Approaching now]
    gives [Approaching]. *)
Theorem distance_label_precedence :
  (forall distanceText,
      match exec true stopsRe distanceText with
      | Some stopsMatch =>
          exists n, group 1 stopsMatch = Some n /\
                    parseStopsAway distanceText = n ++ " stops away"
      | None =>
          if includes (toLowerCase distanceText) "approaching"
          then parseStopsAway distanceText = "Approaching"
          else
            match exec true milesRe distanceText with
            | Some milesMatch =>
                exists t, group 1 milesMatch = Some t /\
                  parseStopsAway distanceText =
                  "~" ++ toString (Num.max (ofZ 1)
                                     (Num.round (mul (parseFloat t) (ofZ 8))))
                      ++ " stops away"
            | None => parseStopsAway distanceText = distanceText
            end
      end)
  /\ parseStopsAway "3 stops away" = "3 stops away"
  /\ parseStopsAway "2.1 miles away" = "~17 stops away"
  /\ Num.round (mul (parseFloat "2.1") (ofZ 8)) = ofZ 17
  /\ parseStopsAway "0.05 miles away" = "~1 stops away"
  /\ Num.round (mul (parseFloat "0.05") (ofZ 8)) = ofZ 0
  /\ parseStopsAway "Approaching now" = "Approaching"
  /\ parseStopsAway "approaching, 3 stops away" = "3 stops away"
  /\ parseStopsAway "approaching, 2 miles away" = "Approaching"
  /\ parseStopsAway "at terminal" = "at terminal".
Proof.
  split; [|repeat split; vm_compute; reflexivity].
  intros d. unfold parseStopsAway.
  destruct (exec true stopsRe d) as [m|] eqn:Es.
  - destruct (exec_binds true stopsRe 1 d m eq_refl Es) as [n Hn].
    exists n. unfold at_. now rewrite Hn.
  - destruct (includes (toLowerCase d) "approaching"); [reflexivity|].
    destruct (exec true milesRe d) as [m|] eqn:Em; [|reflexivity].
    destruct (exec_binds true milesRe 1 d m eq_refl Em) as [t Ht].
    exists t. unfold at_. now rewrite Ht.
Qed.

(** C8: in a block with a valid header, every ordered list adds at most
    one arrival, read from its first list item; a list without an item
    adds nothing; and a block without any ordered list still gives its
    route, with no arrivals, which is part of the output. *)
Theorem one_arrival_per_list (dir headerEl : handle) (m : matchResult) :
  querySelector (Descendant "p" "strong") dir = Some headerEl ->
  exec false headerRe (headerTextOf headerEl) = Some m ->
  exists r,
    parseDirection dir = Some r
    /\ arrivals r = flat_map parseList (querySelectorAll (ByTag "ol") dir)
    /\ (forall ol,
           parseList ol =
           match querySelectorAll (ByTag "li") ol with
           | [] => []
           | li :: _ => [parseItem li]
           end)
    /\ (forall ol, lacks (ByTag "li") ol -> parseList ol = [])
    /\ List.length (arrivals r) =
       List.length
         (filter (fun ol => match querySelector (ByTag "li") ol with
                            | Some _ => true | None => false end)
                 (querySelectorAll (ByTag "ol") dir))
    /\ List.length (arrivals r) <= List.length (querySelectorAll (ByTag "ol") dir)
    /\ (lacks (ByTag "ol") dir -> arrivals r = [])
    /\ (forall doc,
           In dir (docQuerySelectorAll (ByClass "directionAtStop") doc) ->
           In r (routes (parseDocument doc))).
Proof.
  intros Hq Hm.
  exists {| route := at_ m 1; direction := at_ m 2; arrivals := parseLists dir |}.
  assert (Hdir : parseDirection dir =
                 Some {| route := at_ m 1; direction := at_ m 2;
                         arrivals := parseLists dir |}).
  { unfold parseDirection. now rewrite Hq, Hm. }
  split; [exact Hdir|]. cbn [arrivals]. unfold parseLists.
  split; [reflexivity|].
  split; [apply parseList_first|].
  split. { intros ol H. rewrite parseList_first. unfold lacks in H. now rewrite H. }
  split; [apply parseList_count|].
  split. { rewrite parseList_count. apply filter_length_le. }
  split. { unfold lacks. now intros ->. }
  intros doc Hin. cbn [parseDocument routes].
  eapply collect_In; eassumption.
Qed.

Lemma one_arrival_per_list_witness :
  exists r,
    parseDirection (alone mixedBlock) = Some r
    /\ arrivals r = flat_map parseList (querySelectorAll (ByTag "ol") (alone mixedBlock))
    /\ (forall ol,
           parseList ol =
           match querySelectorAll (ByTag "li") ol with
           | [] => []
           | li :: _ => [parseItem li]
           end)
    /\ (forall ol, lacks (ByTag "li") ol -> parseList ol = [])
    /\ List.length (arrivals r) =
       List.length
         (filter (fun ol => match querySelector (ByTag "li") ol with
                            | Some _ => true | None => false end)
                 (querySelectorAll (ByTag "ol") (alone mixedBlock)))
    /\ List.length (arrivals r) <= List.length (querySelectorAll (ByTag "ol") (alone mixedBlock))
    /\ (lacks (ByTag "ol") (alone mixedBlock) -> arrivals r = [])
    /\ (forall doc,
           In (alone mixedBlock) (docQuerySelectorAll (ByClass "directionAtStop") doc) ->
           In r (routes (parseDocument doc))).
Proof.
  apply (one_arrival_per_list (alone mixedBlock)
           {| inQuirks := false; ancestors := ["p"; "div"];
              self := Element "strong" [] [Text "M102 to Harlem"];
              following := [] |}
           {| whole := "M102 to Harlem"; index := 0;
              groups := [(2, "to Harlem"); (1, "M102")] |});
    vm_compute; reflexivity.
Defined.

(** C10: the pattern that cuts the raw distance out of an item's text
    spells [minute] in lower case and has no [i] flag: an item whose text
    has no lower-case [minute] in it (as [3 Minutes, 2 stops away]) gets
    the empty raw distance and the empty distance label, while the
    stops-away and miles patterns take any letter case. *)
Theorem distance_pattern_is_case_sensitive :
  (forall li : handle,
      ~ occursIn "minute" (text (self li)) ->
      rawDistanceOf (text (self li)) = EmptyString /\ stopsAway (parseItem li) = EmptyString)
  /\ text capitalItem = "3 Minutes, 2 stops away"
  /\ stopsAway (parseItem (alone capitalItem)) = EmptyString
  /\ rawDistanceOf "3 minutes, 2 stops away" = "2 stops away"
  /\ parseStopsAway "2 STOPS AWAY" = "2 stops away"
  /\ parseStopsAway "2.1 MILES AWAY" = "~17 stops away".
Proof.
  split; [|repeat split; vm_compute; reflexivity].
  intros li Hno.
  assert (Hinc : includes (text (self li)) "minute" = false).
  { destruct (includes (text (self li)) "minute") eqn:E; [|reflexivity].
    apply includes_iff in E. contradiction. }
  assert (Hraw : rawDistanceOf (text (self li)) = EmptyString).
  { unfold rawDistanceOf. now rewrite distanceRe_needs_minute. }
  split; [exact Hraw|].
  unfold parseItem. cbn [stopsAway textContent orDefault].
  rewrite Hraw. reflexivity.
Qed.

Lemma distance_pattern_is_case_sensitive_witness :
  rawDistanceOf (text (self (alone capitalItem))) = EmptyString /\
  stopsAway (parseItem (alone capitalItem)) = EmptyString.
Proof.
  apply (proj1 distance_pattern_is_case_sensitive (alone capitalItem)).
  intros H. apply includes_iff in H. vm_compute in H. discriminate.
Defined.

Example mixed_block_arrivals :
  option_map arrivals (parseDirection (alone mixedBlock)) =
  Some [{| minutes := "7 min"; minutesNum := ofZ 7;
           stopsAway := EmptyString; vehicleId := EmptyString |}].
Proof. vm_compute. reflexivity. Qed.

Example quiet_block_route :
  routes (parseDocument quietDocument) =
  [{| route := "M103"; direction := "Downtown"; arrivals := [] |}].
Proof. vm_compute. reflexivity. Qed.











(** Without its guard a statement of the extractor does throw: reading
    a property of the item of a list that has none. *)
Example member_of_null_throws :
  Checked.bind (Checked.member (querySelector (ByTag "li") (alone (Element "ol" [] []))))
               (fun li => Checked.Done (textContent (self li)))
  = Checked.Thrown "TypeError".
Proof. reflexivity. Qed.

(** In a quirks-mode document a class selector matches up to ASCII
    case, in a no-quirks document it does not. *)
Example class_selector_by_mode :
  List.length (docQuerySelectorAll (ByClass "directionAtStop") (shoutedDocument true)) = 1
  /\ docQuerySelectorAll (ByClass "directionAtStop") (shoutedDocument false) = []
  /\ routes (parseDocument (shoutedDocument true)) =
     [{| route := "M103"; direction := "Downtown"; arrivals := [] |}]
  /\ routes (parseDocument (shoutedDocument false)) = [].
Proof. repeat split; vm_compute; reflexivity. Qed.



(* ===================================================================== *)
(** * The refresh controller: single flight *)
(* ===================================================================== *)

Section ControllerFacts.
Import Controller.
Variable MIN_REQUEST_GAP_MS : Z.
Variable Data : Type.
Variable parse : string -> Data.

Local Abbreviation step := (Controller.step MIN_REQUEST_GAP_MS parse).
Local Abbreviation run := (Controller.run MIN_REQUEST_GAP_MS parse).
Local Abbreviation reachable := (Controller.reachable MIN_REQUEST_GAP_MS parse).
Local Abbreviation issue := (Controller.issue MIN_REQUEST_GAP_MS).

Lemma pendingAt_pending (p : promise) (a : awaiting) (s : state Data) :
  pendingAt p a s = true -> pending p s = true.
Proof.
  unfold pendingAt, pending. induction (requests s) as [|r rs IH]; simpl;
    [discriminate|].
  intros H. apply orb_true_iff in H as [H|H].
  - apply andb_true_iff in H as [-> _]. reflexivity.
  - rewrite (IH H). apply orb_true_r.
Qed.

Lemma Coherent_pendingAt (p : promise) (a : awaiting) (s : state Data) :
  Coherent s -> pendingAt p a s = true ->
  inFlightRequestRef s = Some p /\ requests s = [(p, a)] /\ callers s = [p].
Proof.
  unfold Coherent, pendingAt. intros Hc Hp.
  destruct (inFlightRequestRef s) as [q|].
  - destruct Hc as [Hcal [Hr|[b Hr]]]; rewrite Hr in Hp; simpl in Hp;
      [discriminate|].
    rewrite orb_false_r in Hp. apply andb_true_iff in Hp as [Hq Hab].
    apply Nat.eqb_eq in Hq; subst q.
    destruct b, a; try discriminate; auto.
  - destruct Hc as [Hr _]. rewrite Hr in Hp. discriminate.
Qed.

Lemma step_Coherent (ev : event) (s s' : state Data) (effs : list effect) :
  step ev s = Some (s', effs) -> Coherent s -> Coherent s'.
Proof.
  destruct ev as [sc now | p ok status | p e | p html date | p e | p];
    cbn [Controller.step]; intros H Hc.
  - (* Call *)
    destruct (negb (present sc)); [now injection H as <- _|].
    destruct (inFlightRequestRef s) as [q|] eqn:Ef; [now injection H as <- _|].
    destruct (Z.ltb _ _); injection H as <- _; [assumption|].
    unfold Coherent in *. rewrite Ef in Hc. destruct Hc as [Hr Hcal].
    cbn. rewrite Hr, Hcal. eauto.
  - (* FetchFulfilled *)
    destruct (pendingAt p AtFetch s) eqn:Ep; [|discriminate].
    destruct (Coherent_pendingAt _ _ _ Hc Ep) as (Hf & Hr & Hcal).
    destruct (negb ok); injection H as <- _; unfold Coherent; cbn;
      rewrite Hf, Hr, Hcal; cbn; rewrite Nat.eqb_refl; cbn; eauto.
  - (* FetchRejected *)
    destruct (pendingAt p AtFetch s) eqn:Ep; [|discriminate].
    destruct (Coherent_pendingAt _ _ _ Hc Ep) as (Hf & Hr & Hcal).
    injection H as <- _; unfold Coherent; cbn;
      rewrite Hf, Hr, Hcal; cbn; rewrite Nat.eqb_refl; cbn; eauto.
  - (* TextFulfilled *)
    destruct (pendingAt p AtText s) eqn:Ep; [|discriminate].
    destruct (Coherent_pendingAt _ _ _ Hc Ep) as (Hf & Hr & Hcal).
    injection H as <- _; unfold Coherent; cbn;
      rewrite Hf, Hr, Hcal; cbn; rewrite Nat.eqb_refl; cbn; eauto.
  - (* TextRejected *)
    destruct (pendingAt p AtText s) eqn:Ep; [|discriminate].
    destruct (Coherent_pendingAt _ _ _ Hc Ep) as (Hf & Hr & Hcal).
    injection H as <- _; unfold Coherent; cbn;
      rewrite Hf, Hr, Hcal; cbn; rewrite Nat.eqb_refl; cbn; eauto.
  - (* Resumed *)
    destruct (existsb _ _ && _) eqn:E; [|discriminate].
    apply andb_true_iff in E as [Ein Enp].
    injection H as <- _. unfold Coherent in *. cbn.
    destruct (inFlightRequestRef s) as [q|].
    + destruct Hc as [Hcal Hr]. rewrite Hcal in Ein |- *. cbn in Ein.
      rewrite orb_false_r in Ein. apply Nat.eqb_eq in Ein; subst q.
      unfold pending in Enp. cbn. rewrite Nat.eqb_refl. cbn.
      destruct Hr as [Hr|[a Hr]]; [auto|].
      rewrite Hr in Enp. cbn in Enp. rewrite Nat.eqb_refl in Enp. discriminate.
    + destruct Hc as [_ Hcal]. rewrite Hcal in Ein. discriminate.
Qed.

Lemma run_Coherent (evs : list event) :
  forall (s s' : state Data) effs,
    run evs s = Some (s', effs) -> Coherent s -> Coherent s'.
Proof.
  induction evs as [|ev evs IH]; intros s s' effs H Hc; cbn [Controller.run] in H.
  - now injection H as <- _.
  - destruct (step ev s) as [[s1 effs1]|] eqn:E1; [|discriminate].
    destruct (run evs s1) as [[s2 effs2]|] eqn:E2; [|discriminate].
    injection H as <- _. eapply IH; [eassumption|].
    eapply step_Coherent; eassumption.
Qed.

Lemma reachable_Coherent (d : Data) (s : state Data) :
  reachable d s -> Coherent s.
Proof.
  intros (evs & effs & H). eapply run_Coherent; [eassumption|].
  unfold Coherent. cbn. auto.
Qed.

Lemma Coherent_outstanding (s : state Data) :
  Coherent s ->
  outstanding s <= 1 /\
  (outstanding s = 1 ->
   exists p a, inFlightRequestRef s = Some p /\ requests s = [(p, a)]).
Proof.
  unfold Coherent, outstanding. intros Hc.
  destruct (inFlightRequestRef s) as [q|].
  - destruct Hc as [_ [Hr|[a Hr]]]; rewrite Hr; cbn; split; try lia; eauto.
  - destruct Hc as [Hr _]. rewrite Hr. cbn. split; [lia | discriminate].
Qed.

(** While a request is in flight, calls start nothing and change
    nothing; each gets the request in flight, or nothing when it has no
    stop code. *)
Lemma calls_in_flight (p : promise) (s : state Data) (calls : list event) :
  inFlightRequestRef s = Some p ->
  forallb isCall calls = true ->
  exists effs,
    run calls s = Some (s, effs) /\ fetchCount effs = 0%nat /\
    Forall (fun e => e = Return Undefined \/ e = Return (Existing p)) effs.
Proof.
  intros Hf. induction calls as [|ev calls IH]; intros Hcalls.
  - exists []. cbn. auto.
  - cbn in Hcalls. apply andb_true_iff in Hcalls as [Hev Hcalls].
    destruct (IH Hcalls) as (effs & Hrun & Hcount & Hall).
    destruct ev as [sc now| | | | |]; try discriminate.
    cbn [Controller.run Controller.step]. rewrite Hf.
    destruct (negb (present sc)); rewrite Hrun;
      eexists; (split; [reflexivity|]); cbn; (split; [exact Hcount|]);
      constructor; auto.
Qed.

Lemma run_cons (ev : event) (evs : list event) (s s1 s2 : state Data) effs1 effs2 :
  step ev s = Some (s1, effs1) -> run evs s1 = Some (s2, effs2) ->
  run (ev :: evs) s = Some (s2, (effs1 ++ effs2)%list).
Proof. intros H1 H2. cbn [Controller.run]. now rewrite H1, H2. Qed.

(** C1: single flight.  In every state the component reaches, at most
    one fetch is under way; while one is, a call of [fetchBusData]
    performs no fetch, changes nothing and returns the request in
    flight; and a call that does start a fetch, followed by any number
    of further calls before the fetch resolves, makes exactly one fetch
    in all. *)
Theorem single_flight (d : Data) (s : state Data) :
  reachable d s ->
  outstanding s <= 1
  /\ (outstanding s = 1 ->
      exists p a,
        inFlightRequestRef s = Some p /\ requests s = [(p, a)] /\
        forall stopCode now,
          present stopCode = true ->
          step (Call stopCode now) s = Some (s, [Return (Existing p)]))
  /\ (forall stopCode now calls,
         present stopCode = true ->
         inFlightRequestRef s = None ->
         (MIN_REQUEST_GAP_MS <= now - lastRequestAtRef s)%Z ->
         forallb isCall calls = true ->
         exists s' effs p,
           run (Call stopCode now :: calls) s = Some (s', effs) /\
           fetchCount effs = 1%nat /\
           outstanding s' = 1%nat /\
           inFlightRequestRef s' = Some p /\
           Forall (fun e => e = Return Undefined \/ e = Return (Existing p))
                  (skipn 2 effs)).
Proof.
  intros Hreach. pose proof (reachable_Coherent _ _ Hreach) as Hc.
  destruct (Coherent_outstanding _ Hc) as [Hle Hone].
  split; [exact Hle|]. split.
  - intros H1. destruct (Hone H1) as (p & a & Hf & Hr).
    exists p, a. split; [assumption|]. split; [assumption|].
    intros sc now Hsc. cbn [Controller.step]. now rewrite Hsc, Hf.
  - intros sc now calls Hsc Hf Hgap Hcalls.
    assert (Hstep : step (Call sc now) s =
                    Some (issue now s, [Fetch (urlOf sc); Return (Awaited (fresh s))])).
    { cbn [Controller.step]. rewrite Hsc, Hf. cbn.
      destruct (Z.ltb_spec (now - lastRequestAtRef s) MIN_REQUEST_GAP_MS);
        [lia | reflexivity]. }
    destruct (calls_in_flight (fresh s) (issue now s) calls eq_refl Hcalls)
      as (effs & Hrun & Hcount & Hall).
    exists (issue now s), ([Fetch (urlOf sc); Return (Awaited (fresh s))] ++ effs)%list,
           (fresh s).
    split; [eapply run_cons; eassumption|].
    split; [cbn; unfold fetchCount in Hcount; now rewrite Hcount|].
    split.
    { unfold outstanding. cbn. unfold Coherent in Hc. rewrite Hf in Hc.
      destruct Hc as [-> _]. reflexivity. }
    split; [reflexivity | exact Hall].
Qed.

(** C2: the gap.  A call made less than the minimum gap after the last
    issued request, with none in flight, performs no fetch and leaves
    the whole state as it was: snapshot, last request time, next
    allowed time, error, and all the rest. *)
Theorem gap_is_enforced (s : state Data) (stopCode : option string) (t : Z) :
  inFlightRequestRef s = None ->
  (t - lastRequestAtRef s < MIN_REQUEST_GAP_MS)%Z ->
  exists effs,
    step (Call stopCode t) s = Some (s, effs) /\
    fetchCount effs = 0%nat /\ effs = [Return Undefined].
Proof.
  intros Hf Hgap. exists [Return Undefined]. cbn [Controller.step].
  destruct (negb (present stopCode)); [auto|].
  rewrite Hf.
  destruct (Z.ltb_spec (t - lastRequestAtRef s) MIN_REQUEST_GAP_MS); [auto | lia].
Qed.


End ControllerFacts.

(* ===================================================================== *)
(** * The stop page at work *)
(* ===================================================================== *)

Lemma single_flight_witness :
  let s := Controller.issue 5000 1700000000000 StopPage_initial in
  Controller.outstanding s <= 1
  /\ exists s' effs p,
      Controller.run 5000 (parseBusData (fun _ => sampleDocument))
        [Controller.Call (Some "402854") 1700000000000;
         Controller.Call (Some "402854") 1700000000001;
         Controller.Call (Some "402854") 1700000009000]
        StopPage_initial = Some (s', effs)
      /\ Controller.fetchCount effs = 1
      /\ Controller.outstanding s' = 1
      /\ Controller.inFlightRequestRef s' = Some p.
Proof.
  split.
  - apply (single_flight 5000 StopSnapshot (parseBusData (fun _ => sampleDocument))
             emptySnapshot).
    exists [Controller.Call (Some "402854") 1700000000000%Z]. eexists. reflexivity.
  - destruct (proj2 (proj2
             (single_flight 5000 StopSnapshot (parseBusData (fun _ => sampleDocument))
                emptySnapshot StopPage_initial
                (ex_intro _ [] (ex_intro _ [] eq_refl))))
             (Some "402854") 1700000000000%Z
             [Controller.Call (Some "402854") 1700000000001%Z;
              Controller.Call (Some "402854") 1700000009000%Z]
             eq_refl eq_refl ltac:(cbn; lia) eq_refl)
      as (s' & effs & p & H1 & H2 & H3 & H4 & _).
    exists s', effs, p. auto.
Defined.

(** The home page: the same callback over its own state. *)
Example home_page_refresh :
  option_map
    (fun r => (Controller.snapshot (fst r),
               Controller.error (fst r),
               Controller.isRefreshing (fst r),
               Controller.outstanding (fst r),
               snd r))
    (Controller.run 5000 (Home_parseBusData (fun _ => loneDocument))
       [Controller.Call (Some STOP_CODE) 1700000000000;
        Controller.Call (Some STOP_CODE) 1700000000200;
        Controller.FetchRejected 0 Controller.OtherValue]
       Home_initial)
  = Some ([], Some "Failed to fetch", false, 0,
          [Controller.Fetch "/api/bustime?q=402854";
           Controller.Return (Controller.Awaited 0);
           Controller.Return (Controller.Existing 0)]).
Proof. vm_compute. reflexivity. Qed.

Lemma gap_is_enforced_witness :
  let s := afterFailure 5000 1700000000000 (Controller.ErrorObject "Failed to fetch") in
  exists effs,
    Controller.step 5000 (parseBusData (fun _ => sampleDocument))
      (Controller.Call (Some "402854") 1700000001000) s = Some (s, effs)
    /\ Controller.fetchCount effs = 0 /\ effs = [Controller.Return Controller.Undefined].
Proof.
  apply (gap_is_enforced 5000 StopSnapshot (parseBusData (fun _ => sampleDocument))).
  - reflexivity.
  - cbn. lia.
Defined.


(** A whole refresh of the stop page: issued, answered, read, released. *)
Example stop_page_refresh :
  option_map
    (fun r => (routes (Controller.snapshot (fst r)),
               Controller.inFlightRequestRef (fst r),
               Controller.nextAllowedRefreshAt (fst r),
               Controller.fetchCount (snd r)))
    (Controller.run 5000 (parseBusData (fun _ => quietDocument))
       [Controller.Call (Some "402854") 1700000000000;
        Controller.Call (Some "402854") 1700000000500;
        Controller.FetchFulfilled 0 true 200;
        Controller.TextFulfilled 0 "<html>" 1700000000800;
        Controller.Resumed 0;
        Controller.Call (Some "402854") 1700000003000]
       StopPage_initial)
  = Some ([{| route := "M103"; direction := "Downtown"; arrivals := [] |}],
          None, 1700000005000%Z, 1).
Proof. vm_compute. reflexivity. Qed.

(* ===================================================================== *)
(** * Trimming *)
(* ===================================================================== *)

Lemma app_nil_r_s (a : string) : a ++ EmptyString = a.
Proof. induction a as [|c a IH]; simpl; [reflexivity | now rewrite IH]. Qed.

Lemma rev_acc_app (s acc : string) : rev_acc s acc = rev s ++ acc.
Proof.
  unfold rev. revert acc. induction s as [|c s IH]; intros acc; simpl.
  - reflexivity.
  - rewrite (IH (String c acc)), (IH (String c EmptyString)), app_assoc_s.
    reflexivity.
Qed.

Lemma rev_cons (c : ascii) (s : string) :
  rev (String c s) = rev s ++ String c EmptyString.
Proof. unfold rev at 1. simpl. apply rev_acc_app. Qed.

Lemma rev_app (a b : string) : rev (a ++ b) = rev b ++ rev a.
Proof.
  induction a as [|c a IH]; simpl.
  - now rewrite app_nil_r_s.
  - now rewrite !rev_cons, IH, app_assoc_s.
Qed.

Lemma rev_involutive (s : string) : rev (rev s) = s.
Proof.
  induction s as [|c s IH]; [reflexivity|].
  now rewrite rev_cons, rev_app, IH.
Qed.

Lemma allChars_app (p : ascii -> bool) (a b : string) :
  allChars p (a ++ b) = allChars p a && allChars p b.
Proof.
  induction a as [|c a IH]; simpl; [reflexivity|].
  now rewrite IH, andb_assoc.
Qed.

Lemma allChars_rev (p : ascii -> bool) (s : string) :
  allChars p (rev s) = allChars p s.
Proof.
  induction s as [|c s IH]; [reflexivity|].
  rewrite rev_cons, allChars_app, IH. simpl.
  rewrite andb_true_r. apply andb_comm.
Qed.

Lemma trimStart_white (s : string) :
  allChars isWhiteSpace s = true -> trimStart s = EmptyString.
Proof.
  induction s as [|c s IH]; simpl; [reflexivity|].
  intros H. apply andb_true_iff in H as [-> H]. auto.
Qed.

Lemma trimStart_app (a b : string) :
  trimStart (a ++ b) =
  if allChars isWhiteSpace a then trimStart b else trimStart a ++ b.
Proof.
  induction a as [|c a IH]; simpl; [reflexivity|].
  destruct (isWhiteSpace c); simpl; [exact IH | reflexivity].
Qed.

Lemma trimStart_spec (s : string) :
  exists a, s = a ++ trimStart s /\ allChars isWhiteSpace a = true
            /\ headClean (trimStart s) = true.
Proof.
  induction s as [|c s IH]; simpl.
  - now exists EmptyString.
  - destruct (isWhiteSpace c) eqn:E.
    + destruct IH as (a & Ha & Hw & Hc).
      exists (String c a). simpl. rewrite E, Hw, <- Ha. auto.
    + exists EmptyString. simpl. now rewrite E.
Qed.

Lemma trimStart_clean (s : string) : headClean s = true -> trimStart s = s.
Proof. destruct s as [|c s]; simpl; [reflexivity|]. now destruct (isWhiteSpace c). Qed.

Lemma trimEnd_white (s : string) :
  allChars isWhiteSpace s = true -> trimEnd s = EmptyString.
Proof.
  intros H. unfold trimEnd. rewrite trimStart_white; [reflexivity|].
  now rewrite allChars_rev.
Qed.

Lemma trimEnd_cons (c : ascii) (s : string) :
  trimEnd (String c s) =
  if allChars isWhiteSpace (String c s) then EmptyString
  else String c (trimEnd s).
Proof.
  unfold trimEnd at 1. rewrite rev_cons, trimStart_app, allChars_rev.
  cbn [allChars]. destruct (allChars isWhiteSpace s) eqn:Hs.
  - rewrite andb_true_r. cbn [trimStart].
    destruct (isWhiteSpace c); [reflexivity|].
    now rewrite (trimEnd_white _ Hs).
  - rewrite andb_false_r, rev_app. reflexivity.
Qed.

Lemma trimEnd_spec (s : string) :
  exists b, s = trimEnd s ++ b /\ allChars isWhiteSpace b = true.
Proof.
  induction s as [|c s IH].
  - now exists EmptyString.
  - rewrite trimEnd_cons. destruct (allChars isWhiteSpace (String c s)) eqn:E.
    + now exists (String c s).
    + destruct IH as (b & Hb & Hw). exists b. simpl. now rewrite <- Hb.
Qed.

Lemma trimEnd_empty (s : string) :
  trimEnd s = EmptyString -> allChars isWhiteSpace s = true.
Proof.
  intros H. destruct (trimEnd_spec s) as (b & Hb & Hw).
  rewrite H in Hb. simpl in Hb. now subst b.
Qed.

Lemma trimEnd_tailClean (s : string) : tailClean (trimEnd s).
Proof.
  induction s as [|c s IH]; intros x y Hxy Hy.
  - destruct x; [simpl in Hxy; now subst y | discriminate].
  - rewrite trimEnd_cons in Hxy.
    destruct (allChars isWhiteSpace (String c s)) eqn:E.
    + destruct x; [simpl in Hxy; now subst y | discriminate].
    + destruct x as [|d x]; simpl in Hxy.
      * subst y. simpl in Hy. apply andb_true_iff in Hy as [Hc Ht].
        assert (Ht' : trimEnd s = EmptyString) by (apply (IH EmptyString); auto).
        apply trimEnd_empty in Ht'. simpl in E. rewrite Hc, Ht' in E. discriminate.
      * injection Hxy as _ Hxy. eapply IH; eassumption.
Qed.

Lemma trimEnd_headClean (s : string) :
  headClean s = true -> headClean (trimEnd s) = true.
Proof.
  destruct s as [|c s]; [reflexivity|]. rewrite trimEnd_cons.
  destruct (allChars isWhiteSpace (String c s)); [reflexivity | auto].
Qed.

Lemma tailClean_trimEnd (t : string) : tailClean t -> trimEnd t = t.
Proof.
  intros H. destruct (trimEnd_spec t) as (b & Hb & Hw).
  rewrite (H _ _ Hb Hw), app_nil_r_s in Hb. auto.
Qed.

(** [trim] cuts an all-white head and an all-white tail off, and what
    it leaves has white space at neither end. *)
Lemma trim_spec (s : string) :
  exists a b,
    s = a ++ trim s ++ b
    /\ allChars isWhiteSpace a = true /\ allChars isWhiteSpace b = true
    /\ headClean (trim s) = true /\ tailClean (trim s).
Proof.
  destruct (trimStart_spec s) as (a & Ha & Hwa & Hc).
  destruct (trimEnd_spec (trimStart s)) as (b & Hb & Hwb).
  exists a, b. unfold trim. rewrite <- Hb, <- Ha.
  repeat split; auto using trimEnd_headClean, trimEnd_tailClean.
Qed.

Lemma trim_idempotent (s : string) : trim (trim s) = trim s.
Proof.
  destruct (trim_spec s) as (a & b & _ & _ & _ & Hc & Ht).
  unfold trim at 1. rewrite (trimStart_clean _ Hc). now apply tailClean_trimEnd.
Qed.

Lemma trim_empty_iff (s : string) :
  trim s = EmptyString <-> allChars isWhiteSpace s = true.
Proof.
  split.
  - intros H. destruct (trim_spec s) as (a & b & Hs & Ha & Hb & _).
    rewrite H in Hs. simpl in Hs. rewrite Hs, allChars_app, Ha, Hb. reflexivity.
  - intros H. unfold trim. rewrite (trimStart_white _ H). reflexivity.
Qed.

Lemma truthy_iff (s : string) : truthy s = true <-> s <> EmptyString.
Proof. destruct s; simpl; split; congruence. Qed.

(* ===================================================================== *)
(** * The matcher: the text a match consumed *)
(* ===================================================================== *)

Section MatcherExact.
Variable icase : bool.
Variable total : nat.

Lemma single_Exact (p : ascii -> bool) (r : regex) :
  (forall x, p x = true -> Lang icase r (String x EmptyString)) ->
  (forall n, mentions n r = false) ->
  Exact icase (single p) r.
Proof.
  intros Hl _ s cs k res H.
  apply single_inv in H as (c & t & -> & Hp & H).
  exists (String c EmptyString), t, cs. auto.
Qed.

Lemma rounds_Exact (body : string -> captures -> cont -> option result)
      (r : regex) (greedy : bool) (k : cont) :
  Exact icase body r ->
  forall fuel s cs res,
    rounds body greedy k fuel s cs = Some res ->
    exists pre s' cs',
      s = pre ++ s' /\ Lang icase (Star greedy r) pre /\ k s' cs' = Some res /\
      (forall n, mentions n r = false -> capture n cs' = capture n cs).
Proof.
  intros Hbody. induction fuel as [|fuel IH]; intros s cs res H; simpl in H.
  - exists EmptyString, s, cs. repeat split; auto. constructor.
  - assert (Hnow : k s cs = Some res ->
                   exists pre s' cs',
                     s = pre ++ s' /\ Lang icase (Star greedy r) pre /\
                     k s' cs' = Some res /\
                     (forall n, mentions n r = false -> capture n cs' = capture n cs)).
    { intros E. exists EmptyString, s, cs. repeat split; auto. constructor. }
    assert (Hagain :
      body s cs
        (fun s' cs' =>
           if Nat.ltb (String.length s') (String.length s)
           then rounds body greedy k fuel s' cs' else None) = Some res ->
      exists pre s' cs',
        s = pre ++ s' /\ Lang icase (Star greedy r) pre /\ k s' cs' = Some res /\
        (forall n, mentions n r = false -> capture n cs' = capture n cs)).
    { intros E. apply Hbody in E as (p1 & s1 & cs1 & -> & Hl1 & E & Hc1).
      destruct (Nat.ltb _ _); [|discriminate].
      apply IH in E as (p2 & s2 & cs2 & -> & Hl2 & E & Hc2).
      exists (p1 ++ p2), s2, cs2. rewrite app_assoc_s.
      split; [reflexivity|]. split; [now constructor|]. split; [assumption|].
      intros n Hn. now rewrite Hc2, Hc1. }
    destruct greedy; unfold orElse in H.
    + destruct (body s cs _) as [x|] eqn:E; [injection H as ->|]; auto.
    + destruct (k s cs) as [x|] eqn:E; [injection H as ->|]; auto.
Qed.

Lemma rmatch_Exact (r : regex) : Exact icase (rmatch icase total r) r.
Proof.
  induction r as [| c | | | | ms | | | r1 IH1 r2 IH2 | r1 IH1 r2 IH2
                 | g r IH | m r IH];
    try (apply single_Exact; [intros x Hx; constructor; try exact Hx | reflexivity]).
  - (* Eps *)
    intros s cs k res H. exists EmptyString, s, cs. repeat split; auto. constructor.
  - (* Dot *)
    now destruct (isLineTerminator x).
  - (* NonSpace *)
    now destruct (isWhiteSpace x).
  - (* Bol *)
    intros s cs k res H. simpl in H. destruct (Nat.eqb _ _); [|discriminate].
    exists EmptyString, s, cs. repeat split; auto. constructor.
  - (* Eol *)
    intros s cs k res H. simpl in H. destruct s; [|discriminate].
    exists EmptyString, EmptyString, cs. repeat split; auto. constructor.
  - (* Seq *)
    intros s cs k res H. simpl in H.
    apply IH1 in H as (p1 & s1 & cs1 & -> & Hl1 & H & Hc1).
    apply IH2 in H as (p2 & s2 & cs2 & -> & Hl2 & H & Hc2).
    exists (p1 ++ p2), s2, cs2. rewrite app_assoc_s.
    split; [reflexivity|]. split; [now constructor|]. split; [assumption|].
    intros n Hn. simpl in Hn. apply orb_false_iff in Hn as [Hn1 Hn2].
    now rewrite Hc2, Hc1.
  - (* Alt *)
    intros s cs k res H. simpl in H. unfold orElse in H.
    destruct (rmatch icase total r1 s cs k) as [x|] eqn:E.
    + injection H as ->. apply IH1 in E as (p1 & s1 & cs1 & -> & Hl1 & E & Hc1).
      exists p1, s1, cs1. repeat split; auto; [now apply L_AltL|].
      intros n Hn. simpl in Hn. apply orb_false_iff in Hn as [Hn1 Hn2]. auto.
    + apply IH2 in H as (p2 & s2 & cs2 & -> & Hl2 & H & Hc2).
      exists p2, s2, cs2. repeat split; auto; [now apply L_AltR|].
      intros n Hn. simpl in Hn. apply orb_false_iff in Hn as [Hn1 Hn2]. auto.
  - (* Star *)
    intros s cs k res H. simpl in H.
    apply (rounds_Exact _ _ _ _ IH) in H. exact H.
  - (* Group *)
    intros s cs k res H. simpl in H.
    apply IH in H as (p1 & s1 & cs1 & -> & Hl1 & H & Hc1).
    eexists p1, s1, _. split; [reflexivity|]. split; [now constructor|].
    split; [exact H|].
    intros n Hn. simpl in Hn. apply orb_false_iff in Hn as [Hn1 Hn2].
    simpl. rewrite Hn1. auto.
Qed.

Lemma rmatch_Group (n : nat) (r : regex) s cs k :
  rmatch icase total (Group n r) s cs k =
  rmatch icase total r s cs
    (fun s' cs' => k s' ((n, take (String.length s - String.length s') s) :: cs')).
Proof. reflexivity. Qed.

(** A greedy run of one-character steps goes as far as the steps pass,
    when the continuation succeeds there. *)
Lemma rounds_greedy (p : ascii -> bool)
      (body : string -> captures -> cont -> option result) (k : cont) :
  (forall s cs k', body s cs k' = single p s cs k') ->
  forall run tail fuel cs res,
    allChars p run = true -> stopsAt p tail = true ->
    String.length (run ++ tail) <= fuel ->
    k tail cs = Some res ->
    rounds body true k fuel (run ++ tail) cs = Some res.
Proof.
  intros Hbody. induction run as [|x run IH]; intros tail fuel cs res Hrun Htail Hfuel Hk.
  - simpl. destruct fuel as [|fuel]; simpl; [exact Hk|].
    rewrite Hbody. destruct tail as [|c tail]; simpl in *.
    + exact Hk.
    + apply negb_true_iff in Htail. rewrite Htail. exact Hk.
  - simpl in Hrun. apply andb_true_iff in Hrun as [Hx Hrun].
    destruct fuel as [|fuel]; [simpl in Hfuel; lia|].
    cbn [rounds append]. rewrite Hbody. cbn [single]. rewrite Hx.
    replace (Nat.ltb _ _) with true
      by (symmetry; apply Nat.ltb_lt; simpl; lia).
    rewrite (IH tail fuel cs res); auto. simpl in Hfuel. lia.
Qed.

Lemma rmatch_Plus_greedy (p : ascii -> bool) (r : regex) (k : cont) :
  (forall s cs k', rmatch icase total r s cs k' = single p s cs k') ->
  forall x run tail cs res,
    p x = true -> allChars p run = true -> stopsAt p tail = true ->
    k tail cs = Some res ->
    rmatch icase total (Plus true r) (String x run ++ tail) cs k = Some res.
Proof.
  intros Hr x run tail cs res Hx Hrun Htail Hk.
  unfold Plus. rewrite rmatch_Seq, Hr. cbn [append single]. rewrite Hx.
  cbn [rmatch]. apply (rounds_greedy p); auto.
Qed.

End MatcherExact.

Lemma take_app_length (a b : string) :
  take (String.length (a ++ b) - String.length b) (a ++ b) = a.
Proof.
  rewrite length_app_s. replace (_ + _ - _) with (String.length a) by lia.
  induction a as [|c a IH]; simpl; [now destruct b | now rewrite IH].
Qed.

Lemma drop_app_length (a b : string) : drop (String.length a) (a ++ b) = b.
Proof. induction a as [|c a IH]; simpl; [reflexivity | exact IH]. Qed.

Lemma lineTerminator_white (c : ascii) :
  isLineTerminator c = true -> isWhiteSpace c = true.
Proof.
  unfold isLineTerminator, isWhiteSpace. intros H.
  apply orb_true_iff in H as [H|H]; apply N.eqb_eq in H; rewrite H; reflexivity.
Qed.

Lemma firstLine_restLine (s : string) :
  s = firstLine s ++ restLine s
  /\ allChars (fun c => negb (isLineTerminator c)) (firstLine s) = true
  /\ stopsAt (fun c => negb (isLineTerminator c)) (restLine s) = true.
Proof.
  induction s as [|c s (IH1 & IH2 & IH3)]; simpl; [auto|].
  destruct (isLineTerminator c) eqn:E; simpl; rewrite ?E; simpl; auto.
  rewrite <- IH1. auto.
Qed.

(** An all-white head can be split off a text that is not all white. *)
Lemma white_head (s : string) :
  allChars isWhiteSpace s = false ->
  exists ws x d, s = ws ++ String x d /\ allChars isWhiteSpace ws = true
                 /\ isWhiteSpace x = false.
Proof.
  induction s as [|c s IH]; simpl; [discriminate|].
  destruct (isWhiteSpace c) eqn:E; simpl; intros H.
  - destruct (IH H) as (ws & x & d & -> & Hw & Hx).
    exists (String c ws), x, d. simpl. rewrite E, Hw. auto.
  - exists EmptyString, c, s. auto.
Qed.

(** The text of a run of one-character steps. *)
Lemma Lang_Star_chars (icase g : bool) (r : regex) (p : ascii -> bool) (t : string) :
  (forall a, Lang icase r a -> exists x, a = String x EmptyString /\ p x = true) ->
  Lang icase (Star g r) t -> allChars p t = true.
Proof.
  intros Hr H. remember (Star g r) as sr eqn:E.
  induction H; try discriminate; [reflexivity|].
  injection E as -> ->.
  destruct (Hr _ H) as (x & -> & Hx). simpl. rewrite Hx. auto.
Qed.

Lemma Lang_Plus_chars (icase g : bool) (r : regex) (p : ascii -> bool) (t : string) :
  (forall a, Lang icase r a -> exists x, a = String x EmptyString /\ p x = true) ->
  Lang icase (Plus g r) t ->
  exists x t', t = String x t' /\ p x = true /\ allChars p t' = true.
Proof.
  intros Hr H. unfold Plus in H. inversion H as [| | | | | | | | r1 r2 a b Ha Hb | | | | |]; subst.
  destruct (Hr _ Ha) as (x & -> & Hx).
  exists x, b. repeat split; auto. eapply Lang_Star_chars; eassumption.
Qed.

Lemma Lang_NonSpace (icase : bool) (a : string) :
  Lang icase NonSpace a ->
  exists x, a = String x EmptyString /\ negb (isWhiteSpace x) = true.
Proof.
  intros H. inversion H; subst. eexists. split; [reflexivity|].
  match goal with E : isWhiteSpace _ = false |- _ => now rewrite E end.
Qed.

Lemma Lang_Space (icase : bool) (a : string) :
  Lang icase Space a ->
  exists x, a = String x EmptyString /\ isWhiteSpace x = true.
Proof. intros H. inversion H; subst. eauto. Qed.

Lemma Lang_Dot (icase : bool) (a : string) :
  Lang icase Dot a ->
  exists x, a = String x EmptyString /\ negb (isLineTerminator x) = true.
Proof.
  intros H. inversion H; subst. eexists. split; [reflexivity|].
  match goal with E : isLineTerminator _ = false |- _ => now rewrite E end.
Qed.

Lemma noWhiteSpace_allChars (s : string) :
  noWhiteSpace s = allChars (fun c => negb (isWhiteSpace c)) s.
Proof. induction s as [|c s IH]; simpl; [reflexivity | now rewrite IH]. Qed.

(** A pattern that opens with [^] matches at the first index. *)
Lemma exec_Bol_some (icase : bool) (r : regex) (s : string) (m : matchResult) :
  exec icase (Seq Bol r) s = Some m ->
  exists s' cs',
    rmatch icase (String.length s) r s [] (fun s' cs' => Some (s', cs')) = Some (s', cs')
    /\ groups m = cs' /\ index m = 0.
Proof.
  intros H.
  destruct (rmatch icase (String.length s) r s [] (fun s' cs' => Some (s', cs')))
    as [[s' cs']|] eqn:E.
  - exists s', cs'. split; [reflexivity|]. unfold exec in H.
    destruct s as [|c s]; cbn [searchFrom] in H;
      rewrite rmatch_Bol, Nat.eqb_refl, E in H; injection H as <-;
      cbn [groups index]; split; auto; lia.
  - rewrite (exec_Bol_none icase r s E) in H. discriminate.
Qed.

Lemma exec_Bol_match (icase : bool) (r : regex) (s s' : string) (cs' : captures) :
  rmatch icase (String.length s) r s [] (fun s' cs' => Some (s', cs')) = Some (s', cs') ->
  exists m, exec icase (Seq Bol r) s = Some m /\ groups m = cs' /\ index m = 0.
Proof.
  intros E. unfold exec.
  destruct s as [|c s]; cbn [searchFrom]; rewrite rmatch_Bol, Nat.eqb_refl, E;
    eexists; (split; [reflexivity|]); cbn [groups index]; split; auto; lia.
Qed.

(* ===================================================================== *)
(** * The header of a block *)
(* ===================================================================== *)

Lemma firstLine_clean (x : ascii) (d : string) :
  isWhiteSpace x = false -> firstLine (String x d) = String x (firstLine d).
Proof.
  intros Hx. simpl. destruct (isLineTerminator x) eqn:E; [|reflexivity].
  apply lineTerminator_white in E. congruence.
Qed.

(** The header pattern of the stop page on a text with a token, white
    space and more: the token, and the rest of the first line. *)
Lemma headerRe_match (route ws : string) (x : ascii) (d : string) :
  route <> EmptyString -> noWhiteSpace route = true ->
  ws <> EmptyString -> allChars isWhiteSpace ws = true ->
  isWhiteSpace x = false ->
  exists m,
    exec false headerRe (route ++ ws ++ String x d) = Some m
    /\ group 1 m = Some route
    /\ group 2 m = Some (firstLine (String x d)).
Proof.
  intros Hr Hrw Hws Hwsw Hx.
  destruct (exec_Bol_match false
              (Seq (Group 1 (Plus true NonSpace))
                 (Seq (Plus true Space) (Seq (Group 2 (Plus true Dot)) Eps)))
              (route ++ ws ++ String x d) (restLine d)
              [(2, String x (firstLine d)); (1, route)]) as (m & Hm & Hg & _).
  - rewrite rmatch_Seq, rmatch_Group.
    destruct route as [|r0 route]; [congruence|].
    simpl in Hrw. apply andb_true_iff in Hrw as [Hr0 Hrw].
    rewrite noWhiteSpace_allChars in Hrw.
    destruct ws as [|w0 ws]; [congruence|].
    simpl in Hwsw. apply andb_true_iff in Hwsw as [Hw0 Hwsw].
    apply (rmatch_Plus_greedy false _ (fun c => negb (isWhiteSpace c)));
      auto; [simpl; now rewrite Hw0|].
    rewrite take_app_length, rmatch_Seq.
    apply (rmatch_Plus_greedy false _ isWhiteSpace);
      auto; [simpl; now rewrite Hx|].
    rewrite rmatch_Seq, rmatch_Group.
    destruct (firstLine_restLine d) as (Hd & Hfl & Hrl).
    assert (Hxd : String x d = String x (firstLine d) ++ restLine d)
      by (simpl; now rewrite <- Hd).
    rewrite Hxd.
    apply (rmatch_Plus_greedy false _ (fun c => negb (isLineTerminator c)));
      auto.
    + destruct (isLineTerminator x) eqn:E; [|reflexivity].
      apply lineTerminator_white in E. congruence.
    + rewrite take_app_length. reflexivity.
  - exists m. split; [exact Hm|]. unfold group. rewrite Hg.
    rewrite (firstLine_clean _ _ Hx). split; reflexivity.
Qed.

(** The header pattern of the home page on a text with a token and
    white space after it. *)
Lemma Home_headerRe_match (route : string) (c : ascii) (rest : string) :
  route <> EmptyString -> noWhiteSpace route = true -> isWhiteSpace c = true ->
  exists m,
    exec false Home.headerRe (route ++ String c rest) = Some m
    /\ group 1 m = Some route.
Proof.
  intros Hr Hrw Hc.
  destruct (exec_Bol_match false (Seq (Group 1 (Plus true NonSpace)) (Seq Space Eps))
              (route ++ String c rest) rest [(1, route)]) as (m & Hm & Hg & _).
  - rewrite rmatch_Seq, rmatch_Group.
    destruct route as [|r0 route]; [congruence|].
    simpl in Hrw. apply andb_true_iff in Hrw as [Hr0 Hrw].
    rewrite noWhiteSpace_allChars in Hrw.
    apply (rmatch_Plus_greedy false _ (fun c => negb (isWhiteSpace c)));
      auto; [simpl; now rewrite Hc|].
    rewrite take_app_length, rmatch_Seq. cbn [rmatch single]. now rewrite Hc.
  - exists m. split; [exact Hm|]. unfold group. now rewrite Hg.
Qed.

(** What a match of either header pattern went through: a token and a
    white-space character after it. *)
Lemma headerRe_token (h : string) (m : matchResult) :
  exec false headerRe h = Some m ->
  exists route c rest,
    h = route ++ String c rest /\ group 1 m = Some route
    /\ route <> EmptyString /\ noWhiteSpace route = true
    /\ isWhiteSpace c = true.
Proof.
  intros H.
  apply (exec_Bol_some false
           (Seq (Group 1 (Plus true NonSpace))
              (Seq (Plus true Space) (Seq (Group 2 (Plus true Dot)) Eps)))) in H
    as (s' & cs' & H & Hg & _).
  rewrite rmatch_Seq, rmatch_Group in H.
  apply rmatch_Exact in H as (p1 & s1 & c1 & Hh & Hl1 & H & _).
  rewrite rmatch_Seq in H.
  apply rmatch_Exact in H as (p2 & s2 & c2 & Hs1 & Hl2 & H & Hc2).
  rewrite rmatch_Seq, rmatch_Group in H.
  apply rmatch_Exact in H as (p3 & s3 & c3 & Hs2 & Hl3 & H & Hc3).
  cbn [rmatch] in H. injection H as _ <-.
  apply (Lang_Plus_chars _ _ _ _ _ (Lang_NonSpace false)) in Hl1 as (x1 & t1 & -> & Hx1 & Ht1).
  apply (Lang_Plus_chars _ _ _ _ _ (Lang_Space false)) in Hl2 as (x2 & t2 & -> & Hx2 & Ht2).
  exists (String x1 t1), x2, (t2 ++ s2).
  subst h s1. rewrite take_app_length in Hc2.
  split; [reflexivity|].
  split.
  { unfold group. rewrite Hg. cbn [capture Nat.eqb].
    rewrite (Hc3 1 eq_refl), (Hc2 1 eq_refl). reflexivity. }
  split; [discriminate|]. split; [|exact Hx2].
  simpl. rewrite Hx1, noWhiteSpace_allChars. exact Ht1.
Qed.

Lemma Home_headerRe_token (h : string) (m : matchResult) :
  exec false Home.headerRe h = Some m ->
  exists route c rest,
    h = route ++ String c rest /\ group 1 m = Some route
    /\ route <> EmptyString /\ noWhiteSpace route = true
    /\ isWhiteSpace c = true.
Proof.
  intros H.
  apply (exec_Bol_some false (Seq (Group 1 (Plus true NonSpace)) (Seq Space Eps))) in H
    as (s' & cs' & H & Hg & _).
  rewrite rmatch_Seq, rmatch_Group in H.
  apply rmatch_Exact in H as (p1 & s1 & c1 & Hh & Hl1 & H & _).
  rewrite rmatch_Seq in H. cbn [rmatch] in H.
  apply single_inv in H as (c & rest & -> & Hc & H). injection H as _ <-.
  apply (Lang_Plus_chars _ _ _ _ _ (Lang_NonSpace false)) in Hl1 as (x1 & t1 & -> & Hx1 & Ht1).
  exists (String x1 t1), c, rest. subst h.
  split; [reflexivity|]. split.
  { unfold group. rewrite Hg. rewrite take_app_length. reflexivity. }
  split; [discriminate|]. split; [|exact Hc].
  simpl. rewrite Hx1, noWhiteSpace_allChars. exact Ht1.
Qed.

(** The first token of a text is unique. *)
Lemma token_unique (a b : string) (c d : ascii) (x y : string) :
  a ++ String c x = b ++ String d y ->
  noWhiteSpace a = true -> noWhiteSpace b = true ->
  isWhiteSpace c = true -> isWhiteSpace d = true ->
  a = b /\ String c x = String d y.
Proof.
  revert b. induction a as [|u a IH]; intros b H Ha Hb Hc Hd.
  - destruct b as [|v b]; [auto|]. simpl in *. injection H as -> _.
    apply andb_true_iff in Hb as [Hb _]. rewrite Hc in Hb. discriminate.
  - destruct b as [|v b]; simpl in *.
    + injection H as -> _. apply andb_true_iff in Ha as [Ha _].
      rewrite Hd in Ha. discriminate.
    + injection H as -> H.
      apply andb_true_iff in Ha as [_ Ha]. apply andb_true_iff in Hb as [_ Hb].
      destruct (IH b H Ha Hb Hc Hd) as [-> E]. auto.
Qed.

Lemma headerTextOf_trim (headerEl : handle) :
  headerTextOf headerEl = trim (text (self headerEl)).
Proof. reflexivity. Qed.

(** After the token of a trimmed header text that has white space in
    it come white space and then a character that is none. *)
Lemma header_split (headerEl : handle) (route : string) (c : ascii) (rest : string) :
  headerTextOf headerEl = route ++ String c rest ->
  isWhiteSpace c = true ->
  exists ws x d,
    String c rest = ws ++ String x d
    /\ ws <> EmptyString /\ allChars isWhiteSpace ws = true
    /\ isWhiteSpace x = false.
Proof.
  intros Hh Hc. rewrite headerTextOf_trim in Hh.
  destruct (trim_spec (text (self headerEl))) as (_ & _ & _ & _ & _ & _ & Htail).
  destruct (allChars isWhiteSpace (String c rest)) eqn:E.
  - specialize (Htail _ _ Hh E). discriminate.
  - destruct (white_head _ E) as (ws & x & d & Hs & Hw & Hx).
    exists ws, x, d. repeat split; auto.
    intros ->. simpl in Hs. injection Hs as -> _. congruence.
Qed.

(** X1: the header of a block on the stop page.  A block is kept
    exactly when its trimmed header text is a token, white space, and
    something after it; the route is the token and the direction is what
    follows the white space, up to the end of its line. *)
Theorem stop_page_header (dir headerEl : handle) :
  querySelector (Descendant "p" "strong") dir = Some headerEl ->
  (forall route ws x d,
      headerTextOf headerEl = route ++ ws ++ String x d ->
      route <> EmptyString -> noWhiteSpace route = true ->
      ws <> EmptyString -> allChars isWhiteSpace ws = true ->
      isWhiteSpace x = false ->
      parseDirection dir =
      Some {| route := route; direction := firstLine (String x d);
              arrivals := parseLists dir |})
  /\ (forall r,
         parseDirection dir = Some r ->
         exists ws x d,
           headerTextOf headerEl = route r ++ ws ++ String x d
           /\ route r <> EmptyString /\ noWhiteSpace (route r) = true
           /\ ws <> EmptyString /\ allChars isWhiteSpace ws = true
           /\ isWhiteSpace x = false
           /\ direction r = firstLine (String x d)).
Proof.
  intros Hq.
  assert (Hfwd : forall route ws x d,
      headerTextOf headerEl = route ++ ws ++ String x d ->
      route <> EmptyString -> noWhiteSpace route = true ->
      ws <> EmptyString -> allChars isWhiteSpace ws = true ->
      isWhiteSpace x = false ->
      parseDirection dir =
      Some {| route := route; direction := firstLine (String x d);
              arrivals := parseLists dir |}).
  { intros route ws x d Hh Hr Hrw Hws Hwsw Hx.
    destruct (headerRe_match route ws x d Hr Hrw Hws Hwsw Hx) as (m & Hm & H1 & H2).
    unfold parseDirection. rewrite Hq, Hh, Hm. unfold at_. now rewrite H1, H2. }
  split; [exact Hfwd|].
  intros r Hr. pose proof Hr as Hr'. unfold parseDirection in Hr'. rewrite Hq in Hr'.
  destruct (exec false headerRe (headerTextOf headerEl)) as [m|] eqn:Em; [|discriminate].
  destruct (headerRe_token _ _ Em) as (p1 & c & rest & Hh & Hg1 & Hp1 & Hp1w & Hc).
  destruct (header_split _ _ _ _ Hh Hc) as (ws & x & d & Hs & Hws & Hwsw & Hx).
  rewrite Hs in Hh.
  rewrite (Hfwd p1 ws x d Hh Hp1 Hp1w Hws Hwsw Hx) in Hr. injection Hr as <-.
  exists ws, x, d. cbn [route direction]. auto 10.
Qed.

Lemma stop_page_header_witness :
  parseDirection (alone mixedBlock) =
  Some {| route := "M102"; direction := "to Harlem";
          arrivals := parseLists (alone mixedBlock) |}.
Proof.
  apply (proj1 (stop_page_header (alone mixedBlock)
                  {| inQuirks := false; ancestors := ["p"; "div"];
                     self := Element "strong" [] [Text "M102 to Harlem"];
                     following := [] |} eq_refl)
               "M102" " " "t"%char "o Harlem");
    try reflexivity; discriminate.
Defined.

Lemma Home_parseDirection_forget (dir : handle) :
  Home.parseDirection dir = option_map withoutDirection (parseDirection dir).
Proof.
  unfold Home.parseDirection, parseDirection.
  destruct (querySelector _ dir) as [headerEl|]; [|reflexivity].
  destruct (exec false headerRe (headerTextOf headerEl)) as [m|] eqn:Em.
  - destruct (headerRe_token _ _ Em) as (p1 & c & rest & Hh & Hg1 & Hp1 & Hp1w & Hc).
    destruct (Home_headerRe_match p1 c rest Hp1 Hp1w Hc) as (m' & Hm' & Hg').
    rewrite Hh, Hm'. unfold withoutDirection, at_. cbn. now rewrite Hg1, Hg'.
  - destruct (exec false Home.headerRe (headerTextOf headerEl)) as [m'|] eqn:Em';
      [|reflexivity].
    destruct (Home_headerRe_token _ _ Em') as (p1 & c & rest & Hh & _ & Hp1 & Hp1w & Hc).
    destruct (header_split _ _ _ _ Hh Hc) as (ws & x & d & Hs & Hws & Hwsw & Hx).
    destruct (headerRe_match p1 ws x d Hp1 Hp1w Hws Hwsw Hx) as (m & Hm & _).
    rewrite Hh, Hs, Hm in Em. discriminate.
Qed.

Lemma collect_map {A B C : Type} (f : A -> option B) (g : B -> C)
      (f' : A -> option C) (l : list A) :
  (forall x, f' x = option_map g (f x)) -> collect f' l = map g (collect f l).
Proof.
  intros H. induction l as [|a l IH]; simpl; [reflexivity|].
  rewrite H. destruct (f a); simpl; now rewrite IH.
Qed.

(** X2: the two pages read the same document alike.  The home page
    keeps exactly the blocks the stop page keeps, in the same order,
    with the same route ids and the same arrivals: its older header
    pattern changes nothing on a trimmed header text. *)
Theorem pages_extract_alike (doc : document) :
  Home.parseDocument doc = map withoutDirection (routes (parseDocument doc)).
Proof.
  unfold Home.parseDocument, parseDocument. cbn [routes].
  apply collect_map, Home_parseDirection_forget.
Qed.

(* ===================================================================== *)
(** * The stops-away rule *)
(* ===================================================================== *)

Ltac every_char c :=
  destruct c as [[] [] [] [] [] [] [] []]; vm_compute; intuition congruence.

Lemma white_not_count (c : ascii) : isWhiteSpace c = true -> isCount c = false.
Proof. every_char c. Qed.

Lemma white_not_s (c : ascii) : isWhiteSpace c = true -> charEq true "s" c = false.
Proof. every_char c. Qed.

Lemma s_not_count (c : ascii) :
  charEq true "s" c = true -> isCount c = false /\ isWhiteSpace c = false.
Proof. every_char c. Qed.

Lemma a_not_white (c : ascii) :
  charEq true "a" c = true -> isWhiteSpace c = false /\ charEq true "s" c = false.
Proof. every_char c. Qed.

Lemma rmatch_Lit_word (total : nat) (p w rest : string) (cs : captures) (k : cont) :
  sameWord p w = true ->
  rmatch true total (Lit p) (w ++ rest) cs k = k rest cs.
Proof.
  revert w; induction p as [|a p IH]; intros w H; destruct w as [|b w];
    try discriminate; [reflexivity|].
  cbn [sameWord] in H. apply andb_true_iff in H as [Hab H].
  cbn [Lit append]. rewrite rmatch_Seq. cbn [rmatch]. unfold single.
  rewrite Hab. now apply IH.
Qed.

Lemma rmatch_Star_greedy (icase : bool) (total : nat) (p : ascii -> bool) (r : regex)
      (k : cont) (run tail : string) (cs : captures) (res : result) :
  (forall s cs k', rmatch icase total r s cs k' = single p s cs k') ->
  allChars p run = true -> stopsAt p tail = true ->
  k tail cs = Some res ->
  rmatch icase total (Star true r) (run ++ tail) cs k = Some res.
Proof.
  intros Hr Hrun Htail Hk. cbn [rmatch]. apply (rounds_greedy p); auto.
Qed.

(** A match at the first index is the match [exec] returns. *)
Lemma exec_first (icase : bool) (r : regex) (s s' : string) (cs' : captures) :
  rmatch icase (String.length s) r s [] (fun s' cs' => Some (s', cs')) = Some (s', cs') ->
  exists m, exec icase r s = Some m /\ groups m = cs'.
Proof.
  intros E. unfold exec. destruct s; cbn [searchFrom]; rewrite E; eauto.
Qed.

Lemma stopsAt_app (p : ascii -> bool) (a b : string) :
  stopsAt p a = true -> (a = EmptyString -> stopsAt p b = true) ->
  stopsAt p (a ++ b) = true.
Proof. destruct a; simpl; auto. Qed.

(** X3: the stops-away rule normalises.  A distance text that opens
    with a count (digits and [<]), optional white space, [stop] or
    [stops], optional white space and [away], the words in any letter
    case, becomes the count followed by [ stops away], whatever comes
    after. *)
Theorem stops_away_normalised (n sp1 stop plural sp2 away tail : string) :
  n <> EmptyString -> allChars isCount n = true ->
  allChars isWhiteSpace sp1 = true ->
  sameWord "stop" stop = true ->
  plural = EmptyString \/ sameWord "s" plural = true ->
  allChars isWhiteSpace sp2 = true ->
  sameWord "away" away = true ->
  parseStopsAway (n ++ sp1 ++ stop ++ plural ++ sp2 ++ away ++ tail)
  = n ++ " stops away".
Proof.
  intros Hn Hcount Hsp1 Hstop Hpl Hsp2 Haway.
  assert (Hstop0 : exists c w, stop = String c w /\ charEq true "s" c = true).
  { destruct stop as [|c w]; [discriminate|]. simpl in Hstop.
    apply andb_true_iff in Hstop as [Hc _]. eauto. }
  destruct Hstop0 as (c0 & w0 & Estop & Hc0).
  assert (Haway0 : exists c w, away = String c w /\ charEq true "a" c = true).
  { destruct away as [|c w]; [discriminate|]. simpl in Haway.
    apply andb_true_iff in Haway as [Hc _]. eauto. }
  destruct Haway0 as (c1 & w1 & Eaway & Hc1).
  destruct (s_not_count _ Hc0) as [Hc0n Hc0w].
  destruct (a_not_white _ Hc1) as [Hc1w Hc1s].
  assert (Hafter : forall total cs,
    rmatch true total
      (Seq (Opt (Chr "s")) (Seq (Star true Space) (Seq (Lit "away") Eps)))
      (plural ++ sp2 ++ away ++ tail) cs (fun s' cs' => Some (s', cs'))
    = Some (tail, cs)).
  { intros total cs.
    assert (Hrest : rmatch true total (Seq (Star true Space) (Seq (Lit "away") Eps))
                      (sp2 ++ away ++ tail) cs (fun s' cs' => Some (s', cs'))
                    = Some (tail, cs)).
    { rewrite rmatch_Seq.
      apply (rmatch_Star_greedy true total isWhiteSpace); auto.
      - subst away. simpl. now rewrite Hc1w.
      - rewrite rmatch_Seq, (rmatch_Lit_word _ _ _ _ _ _ Haway). reflexivity. }
    rewrite rmatch_Seq. unfold Opt. rewrite rmatch_Alt, rmatch_Chr, rmatch_Eps.
    set (K := fun s' cs' =>
                rmatch true total (Seq (Star true Space) (Seq (Lit "away") Eps))
                       s' cs' (fun s'0 cs'0 => Some (s'0, cs'0))).
    assert (HK : K (sp2 ++ away ++ tail) cs = Some (tail, cs)) by exact Hrest.
    unfold orElse, single.
    destruct Hpl as [-> | Hpl].
    - cbn [append]. destruct sp2 as [|b sp2]; cbn [append] in *.
      + subst away. cbn [append] in *. now rewrite Hc1s.
      + simpl in Hsp2. apply andb_true_iff in Hsp2 as [Hb _].
        now rewrite (white_not_s _ Hb).
    - destruct plural as [|b [|? ?]]; try discriminate.
      + cbn [sameWord] in Hpl. rewrite andb_true_r in Hpl.
        cbn [append]. now rewrite Hpl, HK.
      + cbn [sameWord] in Hpl. apply andb_true_iff in Hpl as [_ Hpl]. discriminate. }
  destruct (exec_first true stopsRe
              (n ++ sp1 ++ stop ++ plural ++ sp2 ++ away ++ tail) tail [(1, n)])
    as (m & Hm & Hg).
  - change stopsRe with
      (Seq (Group 1 (Plus true (Class [ADigit; AChar "<"])))
         (Seq (Star true Space)
            (Seq (Lit "stop")
               (Seq (Opt (Chr "s")) (Seq (Star true Space) (Seq (Lit "away") Eps)))))).
    rewrite rmatch_Seq, rmatch_Group.
    destruct n as [|n0 n]; [congruence|].
    simpl in Hcount. apply andb_true_iff in Hcount as [Hn0 Hcount].
    apply (rmatch_Plus_greedy true _ isCount); auto.
    { apply stopsAt_app.
      - destruct sp1 as [|b sp1]; [reflexivity|]. simpl in Hsp1 |- *.
        apply andb_true_iff in Hsp1 as [Hb _]. now rewrite (white_not_count _ Hb).
      - intros _. subst stop. simpl. now rewrite Hc0n. }
    rewrite take_app_length, rmatch_Seq.
    apply (rmatch_Star_greedy true _ isWhiteSpace); auto.
    { subst stop. simpl. now rewrite Hc0w. }
    rewrite rmatch_Seq, (rmatch_Lit_word _ _ _ _ _ _ Hstop).
    apply Hafter.
  - unfold parseStopsAway. rewrite Hm. unfold at_, group. rewrite Hg. reflexivity.
Qed.

Lemma stops_away_normalised_witness :
  parseStopsAway "<1 STOPS  Away, then more" = "<1 stops away".
Proof.
  apply (stops_away_normalised "<1" " " "STOP" "S" "  " "Away" ", then more");
    try reflexivity; [discriminate | now right].
Defined.

(* ===================================================================== *)
(** * Vehicle, stop name, fields *)
(* ===================================================================== *)

Lemma replace_unfold (s pat rep : string) :
  replace s pat rep =
  if startsWith pat s then rep ++ drop (String.length pat) s
  else match s with
       | EmptyString => EmptyString
       | String c r => String c (replace r pat rep)
       end.
Proof. destruct s; reflexivity. Qed.

Lemma replace_prefix (p x rep : string) : replace (p ++ x) p rep = rep ++ x.
Proof. now rewrite replace_unfold, startsWith_app, drop_app_length. Qed.

Lemma replace_absent (s p rep : string) :
  includes s p = false -> replace s p rep = s.
Proof.
  induction s as [|c s IH]; intros H; rewrite includes_unfold in H;
    apply orb_false_iff in H as [H1 H2]; rewrite replace_unfold, H1.
  - reflexivity.
  - now rewrite IH.
Qed.

(** X4: the vehicle of an item.  When the trimmed small print reads
    [Vehicle ] followed by an id, the vehicle is that id; when it has no
    [Vehicle ] in it, the vehicle is the trimmed small print as it is. *)
Theorem vehicle_id_of_small_print (li small : handle) :
  querySelector (ByTag "small") li = Some small ->
  (forall id, trim (text (self small)) = "Vehicle " ++ id ->
              vehicleId (parseItem li) = id)
  /\ (~ occursIn "Vehicle " (trim (text (self small))) ->
      vehicleId (parseItem li) = trim (text (self small))).
Proof.
  intros Hq. unfold parseItem. cbn [vehicleId]. rewrite Hq.
  cbn [textContent option_map orDefault]. split.
  - intros id ->. apply (replace_prefix "Vehicle " id EmptyString).
  - intros Hno. apply replace_absent.
    destruct (includes _ _) eqn:E; [|reflexivity].
    apply includes_iff in E. contradiction.
Qed.

Lemma vehicle_id_of_small_print_witness :
  vehicleId (parseItem (alone sampleItem)) = "1234".
Proof.
  apply (proj1 (vehicle_id_of_small_print (alone sampleItem)
                  {| inQuirks := false; ancestors := ["li"];
                     self := Element "small" [] [Text "Vehicle 1234"];
                     following := [] |} eq_refl) "1234").
  reflexivity.
Defined.

Lemma firstText_some (sibs : list node) (t : string) :
  firstText sibs = Some t ->
  t <> EmptyString /\ exists node, In node sibs /\ t = trim (text node).
Proof.
  induction sibs as [|n sibs IH]; cbn [firstText textContent option_map];
    [discriminate|].
  destruct (truthy (trim (text n))) eqn:E.
  - intros [= <-]. split; [now apply truthy_iff|]. exists n. split; [now left | reflexivity].
  - intros H. destruct (IH H) as (Ht & node & Hin & Hn).
    split; [assumption|]. exists node. split; [now right | assumption].
Qed.

Lemma firstText_none (sibs : list node) :
  firstText sibs = None ->
  forall node, In node sibs -> trim (text node) = EmptyString.
Proof.
  induction sibs as [|n sibs IH]; cbn [firstText textContent option_map];
    [contradiction|].
  destruct (truthy (trim (text n))) eqn:E; [discriminate|].
  intros H node [<-|Hin]; [|now apply IH].
  destruct (trim (text n)); [reflexivity | discriminate].
Qed.

Lemma scanHeadings_some (h3s : list handle) :
  scanHeadings h3s <> EmptyString ->
  exists h3 node,
    In h3 h3s /\ includes (text (self h3)) "Bus Stop:" = true
    /\ In node (following h3) /\ scanHeadings h3s = trim (text node).
Proof.
  induction h3s as [|h3 h3s IH]; cbn [scanHeadings textContent]; [congruence|].
  destruct (includes (text (self h3)) "Bus Stop:") eqn:Ei.
  - destruct (firstText (following h3)) as [t|] eqn:Ef.
    + intros _. destruct (firstText_some _ _ Ef) as (_ & node & Hin & ->).
      exists h3, node. auto using in_eq.
    + intros H. destruct (IH H) as (h & node & Hh & Hi & Hn & E).
      exists h, node. auto using in_cons.
  - intros H. destruct (IH H) as (h & node & Hh & Hi & Hn & E).
    exists h, node. auto using in_cons.
Qed.

Lemma scanHeadings_found (h3s : list handle) (h3 : handle) (node : Dom.node) :
  In h3 h3s -> includes (text (self h3)) "Bus Stop:" = true ->
  In node (following h3) -> trim (text node) <> EmptyString ->
  scanHeadings h3s <> EmptyString.
Proof.
  intros Hin Hi Hn Ht.
  induction h3s as [|h h3s IH]; [contradiction|]. cbn [scanHeadings textContent].
  destruct (includes (text (self h)) "Bus Stop:") eqn:Ei.
  - destruct (firstText (following h)) as [t|] eqn:Ef.
    + now destruct (firstText_some _ _ Ef).
    + destruct Hin as [->|Hin]; [|auto].
      exfalso. apply Ht. eapply firstText_none; eassumption.
  - destruct Hin as [->|Hin]; [congruence | auto].
Qed.

(** X5: the stop name.  It is not empty exactly when some [h3] whose
    text has [Bus Stop:] in it is followed by a sibling with text that
    is not blank; it is then the trimmed text of such a sibling, and in
    every case it has white space at neither end. *)
Theorem stop_name_spec (doc : document) :
  trim (parseStopName doc) = parseStopName doc
  /\ (parseStopName doc <> EmptyString ->
      exists h3 node,
        In h3 (docQuerySelectorAll (ByTag "h3") doc)
        /\ occursIn "Bus Stop:" (text (self h3))
        /\ In node (following h3)
        /\ parseStopName doc = trim (text node))
  /\ (forall h3 node,
         In h3 (docQuerySelectorAll (ByTag "h3") doc) ->
         occursIn "Bus Stop:" (text (self h3)) ->
         In node (following h3) -> trim (text node) <> EmptyString ->
         parseStopName doc <> EmptyString).
Proof.
  unfold parseStopName.
  assert (Hsome : scanHeadings (docQuerySelectorAll (ByTag "h3") doc) <> EmptyString ->
      exists h3 node,
        In h3 (docQuerySelectorAll (ByTag "h3") doc)
        /\ occursIn "Bus Stop:" (text (self h3))
        /\ In node (following h3)
        /\ scanHeadings (docQuerySelectorAll (ByTag "h3") doc) = trim (text node)).
  { intros H. destruct (scanHeadings_some _ H) as (h3 & node & H1 & H2 & H3 & H4).
    exists h3, node. apply includes_iff in H2. auto. }
  split; [|split; [exact Hsome|]].
  - destruct (scanHeadings (docQuerySelectorAll (ByTag "h3") doc)) eqn:E;
      [reflexivity|].
    destruct Hsome as (_ & node & _ & _ & _ & ->); [discriminate|].
    apply trim_idempotent.
  - intros h3 node H1 H2 H3 H4. apply includes_iff in H2.
    eapply scanHeadings_found; eassumption.
Qed.

Lemma stop_name_spec_witness :
  parseStopName
    {| quirksMode := false; roots := [Element "body" []
                   [Element "h3" [] [Text "Bus Stop:"]; Text "  ";
                    Text " 3 AV/E 23 ST "; Element "p" [] []]] |}
  <> EmptyString.
Proof.
  apply (proj2 (proj2 (stop_name_spec _))
           {| inQuirks := false; ancestors := ["body"];
              self := Element "h3" [] [Text "Bus Stop:"];
              following := [Text "  "; Text " 3 AV/E 23 ST "; Element "p" [] []] |}
           (Text " 3 AV/E 23 ST ")).
  - left. reflexivity.
  - exists EmptyString, EmptyString. reflexivity.
  - right. left. reflexivity.
  - vm_compute. discriminate.
Defined.

(** X6: the fields of an arrival.  On every arrival of a snapshot the
    minutes text has white space at neither end and the rank is the rank
    of that text. *)
Theorem arrival_fields (doc : document) :
  Forall (fun r =>
            Forall (fun a => trim (minutes a) = minutes a
                             /\ minutesNum a = parseMinutesNum (minutes a))
                   (arrivals r))
         (routes (parseDocument doc)).
Proof.
  unfold parseDocument. cbn [routes].
  apply collect_Forall. intros dir r Hr.
  rewrite (parseDirection_arrivals _ _ Hr). unfold parseLists.
  apply flat_map_Forall. intros ol. unfold parseList.
  destruct (querySelector _ ol) as [li|]; constructor; [|constructor].
  unfold parseItem. cbn [minutes minutesNum]. split; [|reflexivity].
  destruct (querySelector (ByTag "strong") li) as [el|];
    cbn [textContent option_map orDefault]; [apply trim_idempotent | reflexivity].
Qed.

(** X7: the search box of the home page.  A stop code that is blank
    navigates nowhere; any other goes to [/stop/] followed by the code
    without the white space around it, and that is never empty. *)
Theorem handleGo_spec (stopCode : string) :
  (allChars isWhiteSpace stopCode = true -> handleGo stopCode = None)
  /\ (allChars isWhiteSpace stopCode = false ->
      exists a code b,
        handleGo stopCode = Some ("/stop/" ++ code)
        /\ stopCode = a ++ code ++ b
        /\ allChars isWhiteSpace a = true /\ allChars isWhiteSpace b = true
        /\ code <> EmptyString /\ headClean code = true /\ tailClean code).
Proof.
  unfold handleGo. split.
  - intros H. apply trim_empty_iff in H. now rewrite H.
  - intros H. destruct (trim_spec stopCode) as (a & b & Hs & Ha & Hb & Hc & Ht).
    assert (Hne : trim stopCode <> EmptyString).
    { intros E. apply trim_empty_iff in E. congruence. }
    exists a, (trim stopCode), b.
    apply truthy_iff in Hne as Htr. rewrite Htr. cbn [negb]. auto 10.
Qed.

Lemma handleGo_spec_witness :
  exists a code b,
    handleGo " 402854  " = Some ("/stop/" ++ code)
    /\ " 402854  " = a ++ code ++ b
    /\ allChars isWhiteSpace a = true /\ allChars isWhiteSpace b = true
    /\ code <> EmptyString /\ headClean code = true /\ tailClean code.
Proof.
  apply (proj2 (handleGo_spec " 402854  ")). reflexivity.
Defined.

(* ===================================================================== *)
(** * The order of the cards *)
(* ===================================================================== *)

Lemma negative_sign (x : number) :
  negative x = true ->
  x = S754_infinity true \/ exists m e, x = S754_finite true m e.
Proof.
  destruct x as [s|s| |s m e]; try discriminate; destruct s; try discriminate; eauto.
Qed.

Lemma binary_round_positive (m : positive) (e : Z) :
  negative (binary_round Num.prec Num.emax false m e) = false.
Proof.
  unfold binary_round, binary_round_aux.
  destruct (shl_align m e _) as [mz ez].
  destruct (shr_fexp _ _ _ _ _) as [mrs' e'].
  destruct (shr_fexp _ _ _ _ _) as [mrs'' e''].
  destruct (shr_m mrs''); [reflexivity | | reflexivity].
  destruct (Z.leb _ _); reflexivity.
Qed.

Lemma binary_normalize_negative (z e : Z) :
  negative (binary_normalize Num.prec Num.emax z e false) = true -> (z < 0)%Z.
Proof.
  destruct z as [|m|m]; cbn [binary_normalize].
  - discriminate.
  - now rewrite binary_round_positive.
  - lia.
Qed.

(** [x - y < 0] and [y - x < 0] never hold together. *)
Lemma sub_asymmetric (x y : number) :
  negative (sub x y) = true -> negative (sub y x) = false.
Proof.
  destruct x as [sx|sx| |sx mx ex], y as [sy|sy| |sy my ey];
    try (destruct sx, sy; cbn; congruence);
    try (destruct sx; cbn; congruence);
    try (destruct sy; cbn; congruence);
    try (cbn; congruence).
  unfold sub, SFsub. intros H. apply binary_normalize_negative in H.
  rewrite (Z.min_comm ey ex).
  destruct (negative (binary_normalize _ _ _ _ _)) eqn:E; [|reflexivity].
  apply binary_normalize_negative in E. lia.
Qed.

Lemma insertSorted_perm {A : Type} (cmp : A -> A -> number) (x : A) (l : list A) :
  Permutation (x :: l) (insertSorted cmp x l).
Proof.
  induction l as [|y l IH]; simpl; [reflexivity|].
  destruct (negative (cmp y x)); [|reflexivity].
  rewrite perm_swap. now constructor.
Qed.

Lemma sortBy_perm {A : Type} (cmp : A -> A -> number) (l : list A) :
  Permutation l (sortBy cmp l).
Proof.
  induction l as [|x l IH]; simpl; [reflexivity|].
  rewrite <- insertSorted_perm. now constructor.
Qed.

Lemma filter_split_perm {A : Type} (f : A -> bool) (l : list A) :
  Permutation l (filter f l ++ filter (fun x => negb (f x)) l).
Proof.
  induction l as [|x l IH]; simpl; [reflexivity|].
  destruct (f x); simpl.
  - now constructor.
  - rewrite <- Permutation_middle. now constructor.
Qed.

Lemma insertSorted_ascending {A : Type} (cmp : A -> A -> number) (x : A) (l : list A) :
  (forall a b, negative (cmp a b) = true -> negative (cmp b a) = false) ->
  ascending cmp l -> ascending cmp (insertSorted cmp x l).
Proof.
  intros Hasym. induction l as [|y l IH]; intros Hl; cbn [insertSorted].
  - cbn. auto.
  - destruct (negative (cmp y x)) eqn:E.
    + destruct Hl as [Hy Hl]. specialize (IH Hl).
      cbn [ascending]. split; [|exact IH].
      destruct l as [|z l]; cbn [insertSorted] in *.
      * auto.
      * destruct (negative (cmp z x)); auto.
    + cbn [ascending]. auto.
Qed.

Lemma sortBy_ascending {A : Type} (cmp : A -> A -> number) (l : list A) :
  (forall a b, negative (cmp a b) = true -> negative (cmp b a) = false) ->
  ascending cmp (sortBy cmp l).
Proof.
  intros Hasym. induction l as [|x l IH]; cbn [sortBy]; [exact I|].
  now apply insertSorted_ascending.
Qed.

Lemma nonEmpty_iff {A : Type} (l : list A) : nonEmpty l = true <-> l <> [].
Proof. destruct l; simpl; split; congruence. Qed.

(** X8: the cards of the stop page.  Every route of the snapshot gets
    exactly one card; the routes with arrivals come first, those without
    follow in the order of the document; there is no card exactly when
    the snapshot has no route. *)
Theorem stop_page_cards (routes : list BusRoute) :
  Permutation routes (StopPage_cards routes)
  /\ Forall (fun r => arrivals r <> []) (withArrivals routes)
  /\ Forall (fun r => arrivals r = []) (noArrivals routes)
  /\ noArrivals routes = filter (fun r => negb (nonEmpty (arrivals r))) routes
  /\ ((withArrivals routes = [] /\ noArrivals routes = []) <-> routes = []).
Proof.
  assert (Hperm : Permutation routes (StopPage_cards routes)).
  { unfold StopPage_cards, withArrivals, noArrivals.
    rewrite <- sortBy_perm. apply filter_split_perm. }
  split; [exact Hperm|]. split; [|split; [|split; [reflexivity|]]].
  - apply Forall_forall. intros r Hr. unfold withArrivals in Hr.
    apply (Permutation_in _ (Permutation_sym (sortBy_perm _ _))) in Hr.
    apply filter_In in Hr as [_ Hr]. now apply nonEmpty_iff.
  - apply Forall_forall. intros r Hr. unfold noArrivals in Hr.
    apply filter_In in Hr as [_ Hr]. now destruct (arrivals r).
  - split.
    + intros [H1 H2]. unfold StopPage_cards in Hperm. rewrite H1, H2 in Hperm.
      simpl in Hperm. apply Permutation_sym in Hperm.
      now apply Permutation_nil in Hperm.
    + intros ->. split; reflexivity.
Qed.

(** X9: the order of the cards with arrivals, on both pages.  No card
    is followed by one whose first rank is smaller: for consecutive
    cards [a] then [b], the rank of [b] minus the rank of [a] is not
    negative. *)
Theorem cards_by_soonest :
  (forall routes, ascending bySoonest (withArrivals routes))
  /\ (forall routes, ascending Home_bySoonest (Home_withArrivals routes)).
Proof.
  split; intros routes; apply sortBy_ascending; intros a b; apply sub_asymmetric.
Qed.

Lemma Home_withArrivals_In (routes : list Home.BusRoute) (r : Home.BusRoute) :
  In r (Home_withArrivals routes) <-> In r routes /\ Home.arrivals r <> [].
Proof.
  unfold Home_withArrivals. split.
  - intros H. apply (Permutation_in _ (Permutation_sym (sortBy_perm _ _))) in H.
    apply filter_In in H as [H1 H2]. split; [assumption | now apply nonEmpty_iff].
  - intros [H1 H2]. apply (Permutation_in _ (sortBy_perm _ _)).
    apply filter_In. split; [assumption | now apply nonEmpty_iff].
Qed.

(** X10: the cards of the home page.  While [loading] no card is
    drawn, so none in the initial state.  Once it is over, a name gets a
    card exactly when it is one of the three fixed routes or the route
    of the snapshot with that name has arrivals; the fixed routes
    without arrivals get the empty cards, once each; so a route outside
    the three with no arrival gets no card. *)
Theorem home_page_cards (loading : bool) (routes : list Home.BusRoute) (name : string) :
  (In name (emptyRoutes routes) <->
   In name ALL_ROUTES /\
   ~ exists r, In r routes /\ Home.route r = name /\ Home.arrivals r <> [])
  /\ (In name (Home_cards loading routes) <->
      loading = false /\
      (In name ALL_ROUTES \/
       exists r, In r routes /\ Home.route r = name /\ Home.arrivals r <> []))
  /\ NoDup (emptyRoutes routes)
  /\ Home_cards (Controller.loading Home_initial) (Controller.snapshot Home_initial) = [].
Proof.
  assert (Hactive :
    existsb (String.eqb name) (map Home.route (Home_withArrivals routes)) = true <->
    exists r, In r routes /\ Home.route r = name /\ Home.arrivals r <> []).
  { rewrite existsb_exists. split.
    - intros (x & Hx & E). apply String.eqb_eq in E; subst x.
      apply in_map_iff in Hx as (r & Hr & Hin).
      apply Home_withArrivals_In in Hin as [H1 H2]. eauto.
    - intros (r & H1 & H2 & H3). exists name. split; [|apply String.eqb_refl].
      apply in_map_iff. exists r. split; [assumption|].
      now apply Home_withArrivals_In. }
  assert (Hempty : In name (emptyRoutes routes) <->
                   In name ALL_ROUTES /\
                   ~ exists r, In r routes /\ Home.route r = name /\ Home.arrivals r <> []).
  { unfold emptyRoutes. rewrite filter_In, negb_true_iff, <- Hactive.
    now rewrite not_true_iff_false. }
  split; [exact Hempty|]. split.
  - unfold Home_cards. destruct loading.
    { split; [intros [] | intros [H _]; discriminate]. }
    rewrite in_app_iff, Hempty. split.
    + intros H. split; [reflexivity|]. destruct H as [H|[H _]]; [right | now left].
      apply in_map_iff in H as (r & Hr & Hin).
      apply Home_withArrivals_In in Hin as [H1 H2]. eauto.
    + intros [_ [H|H]].
      * destruct (existsb (String.eqb name)
                    (map Home.route (Home_withArrivals routes))) eqn:E.
        -- left. apply existsb_exists in E as (x & Hx & E).
           apply String.eqb_eq in E. now subst x.
        -- right. split; [assumption|]. intros Hex. apply Hactive in Hex. congruence.
      * left. destruct H as (r & H1 & H2 & H3). apply in_map_iff. exists r.
        split; [assumption|]. now apply Home_withArrivals_In.
  - split; [|reflexivity].
    unfold emptyRoutes. apply NoDup_filter. unfold ALL_ROUTES.
    repeat constructor; simpl; intuition discriminate.
Qed.

(* ===================================================================== *)
(** * The refresh controller: what else it keeps *)
(* ===================================================================== *)

Section ControllerMore.
Import Controller.
Variable MIN_REQUEST_GAP_MS : Z.
Variable Data : Type.
Variable parse : string -> Data.

Local Abbreviation step := (Controller.step MIN_REQUEST_GAP_MS parse).
Local Abbreviation run := (Controller.run MIN_REQUEST_GAP_MS parse).
Local Abbreviation reachable := (Controller.reachable MIN_REQUEST_GAP_MS parse).
Local Abbreviation issue := (Controller.issue MIN_REQUEST_GAP_MS).

Lemma step_Settled (d : Data) (ev : event) (s s' : state Data) (effs : list effect) :
  step ev s = Some (s', effs) ->
  Settled MIN_REQUEST_GAP_MS d s -> Settled MIN_REQUEST_GAP_MS d s'.
Proof.
  intros H (Hc & Hr & Hn & Hl).
  pose proof (step_Coherent _ _ _ _ _ _ _ H Hc) as Hc'.
  split; [exact Hc'|]. clear Hc'.
  destruct ev as [sc now | p ok status | p e | p html date | p e | p];
    cbn [Controller.step] in H.
  - destruct (negb (present sc)); [injection H as <- _; auto|].
    destruct (inFlightRequestRef s) as [q|] eqn:Ef; [injection H as <- _; auto|].
    destruct (Z.ltb _ _); injection H as <- _; [auto|].
    cbn. auto.
  - destruct (pendingAt p AtFetch s) eqn:Ep; [|discriminate].
    destruct (Coherent_pendingAt _ _ _ _ Hc Ep) as (Hf & Hq & Hcal).
    destruct (negb ok); injection H as <- _; cbn; rewrite Hq; cbn;
      rewrite ?Nat.eqb_refl; cbn.
    + repeat split; auto; discriminate.
    + rewrite Hq in Hr. cbn in Hr. auto.
  - destruct (pendingAt p AtFetch s) eqn:Ep; [|discriminate].
    destruct (Coherent_pendingAt _ _ _ _ Hc Ep) as (Hf & Hq & Hcal).
    injection H as <- _; cbn; rewrite Hq; cbn; rewrite ?Nat.eqb_refl; cbn.
    repeat split; auto; discriminate.
  - destruct (pendingAt p AtText s) eqn:Ep; [|discriminate].
    destruct (Coherent_pendingAt _ _ _ _ Hc Ep) as (Hf & Hq & Hcal).
    injection H as <- _; cbn; rewrite Hq; cbn; rewrite ?Nat.eqb_refl; cbn.
    repeat split; auto; discriminate.
  - destruct (pendingAt p AtText s) eqn:Ep; [|discriminate].
    destruct (Coherent_pendingAt _ _ _ _ Hc Ep) as (Hf & Hq & Hcal).
    injection H as <- _; cbn; rewrite Hq; cbn; rewrite ?Nat.eqb_refl; cbn.
    repeat split; auto; discriminate.
  - destruct (existsb _ _ && _); [|discriminate].
    injection H as <- _. cbn. auto.
Qed.

Lemma run_Settled (d : Data) (evs : list event) :
  forall (s s' : state Data) effs,
    run evs s = Some (s', effs) ->
    Settled MIN_REQUEST_GAP_MS d s -> Settled MIN_REQUEST_GAP_MS d s'.
Proof.
  induction evs as [|ev evs IH]; intros s s' effs H Hs; cbn [Controller.run] in H.
  - now injection H as <- _.
  - destruct (step ev s) as [[s1 effs1]|] eqn:E1; [|discriminate].
    destruct (run evs s1) as [[s2 effs2]|] eqn:E2; [|discriminate].
    injection H as <- _. eapply IH; [eassumption|].
    eapply step_Settled; eassumption.
Qed.

Lemma reachable_Settled (d : Data) (s : state Data) :
  reachable d s -> Settled MIN_REQUEST_GAP_MS d s.
Proof.
  intros (evs & effs & H). eapply run_Settled; [eassumption|].
  unfold Settled, Coherent. cbn. auto 10.
Qed.

(** X11: the spinner.  In every state the component reaches,
    [isRefreshing] is true exactly while a fetch is under way. *)
Theorem spinner_tracks_fetch (d : Data) (s : state Data) :
  reachable d s ->
  (isRefreshing s = true <-> outstanding s = 1%nat).
Proof.
  intros Hreach. destruct (reachable_Settled _ _ Hreach) as (Hc & Hr & _).
  destruct (Coherent_outstanding _ _ Hc) as [Hle _].
  rewrite Hr. unfold outstanding in *.
  destruct (requests s) as [|r [|r' rs]]; cbn in *; split; intros; try lia;
    try discriminate; reflexivity.
Qed.

Lemma cooldown_over (next nowMs : Z) :
  (0 <? refreshCooldownSeconds next nowMs)%Z = false -> (next <= nowMs)%Z.
Proof.
  unfold refreshCooldownSeconds. intros H. apply Z.ltb_ge in H.
  destruct (Z.le_gt_cases next nowMs) as [Hle|Hgt]; [assumption|exfalso].
  assert (Hneg : (- (next - nowMs) / 1000 < 0)%Z).
  { apply Z.div_lt_upper_bound; lia. }
  lia.
Qed.

(** X12: the refresh button.  When the button is enabled (not
    refreshing, cooldown at zero for the displayed clock), a click at a
    time not before the displayed one is not dropped by the gap guard:
    it starts a fetch or gets the request that is being released. *)
Theorem enabled_button_is_honoured (d : Data) (s : state Data)
        (nowMs now : Z) (stopCode : option string) :
  reachable d s ->
  refreshLocked s nowMs = false ->
  (nowMs <= now)%Z -> (MIN_REQUEST_GAP_MS <= now)%Z ->
  present stopCode = true ->
  exists s' effs,
    step (Call stopCode now) s = Some (s', effs)
    /\ effs <> [Return Undefined]
    /\ (inFlightRequestRef s = None -> fetchCount effs = 1%nat).
Proof.
  intros Hreach Hlock Hnow Hepoch Hsc.
  destruct (reachable_Settled _ _ Hreach) as (_ & _ & Hn & _).
  unfold refreshLocked in Hlock. apply orb_false_iff in Hlock as [_ Hcool].
  apply cooldown_over in Hcool.
  cbn [Controller.step]. rewrite Hsc. cbn [negb].
  destruct (inFlightRequestRef s) as [p|].
  - eexists _, _. split; [reflexivity|]. split; [discriminate | discriminate].
  - destruct (Z.ltb_spec (now - lastRequestAtRef s) MIN_REQUEST_GAP_MS) as [Hlt|Hge].
    + exfalso. destruct Hn as [Hn|[Hn0 Hl0]]; lia.
    + eexists _, _. split; [reflexivity|]. split; [discriminate | reflexivity].
Qed.

Lemma step_last (ev : event) (s s' : state Data) (effs : list effect) :
  step ev s = Some (s', effs) ->
  (fetchCount effs = 0%nat /\ lastRequestAtRef s' = lastRequestAtRef s)
  \/ (exists sc now, ev = Call sc now /\ fetchCount effs = 1%nat
                     /\ (MIN_REQUEST_GAP_MS <= now - lastRequestAtRef s)%Z
                     /\ lastRequestAtRef s' = now).
Proof.
  destruct ev as [sc now | p ok status | p e | p html date | p e | p];
    cbn [Controller.step]; intros H.
  - destruct (negb (present sc)); [injection H as <- <-; auto|].
    destruct (inFlightRequestRef s); [injection H as <- <-; auto|].
    destruct (Z.ltb_spec (now - lastRequestAtRef s) MIN_REQUEST_GAP_MS);
      injection H as <- <-; [auto|].
    right. exists sc, now. auto.
  - destruct (pendingAt p AtFetch s); [|discriminate].
    destruct (negb ok); injection H as <- <-; auto.
  - destruct (pendingAt p AtFetch s); [|discriminate]. injection H as <- <-; auto.
  - destruct (pendingAt p AtText s); [|discriminate]. injection H as <- <-; auto.
  - destruct (pendingAt p AtText s); [|discriminate]. injection H as <- <-; auto.
  - destruct (existsb _ _ && _); [|discriminate]. injection H as <- <-; auto.
Qed.

Lemma issuedAt_spaced (evs : list event) :
  forall s : state Data,
    spaced MIN_REQUEST_GAP_MS
           (lastRequestAtRef s :: issuedAt MIN_REQUEST_GAP_MS parse evs s).
Proof.
  induction evs as [|ev evs IH]; intros s; cbn [issuedAt]; [cbn; auto|].
  destruct (step ev s) as [[s1 effs]|] eqn:E; [|cbn; auto].
  destruct (step_last _ _ _ _ E) as [[Hc Hl]|(sc & now & -> & Hc & Hgap & Hl)].
  - specialize (IH s1). rewrite Hl in IH.
    destruct ev; try exact IH. rewrite Hc. exact IH.
  - rewrite Hc. cbn [Nat.ltb Nat.leb]. specialize (IH s1). rewrite Hl in IH.
    cbn [spaced]. split; [exact Hgap | exact IH].
Qed.

Lemma issuedAt_count (evs : list event) :
  forall (s s' : state Data) effs,
    run evs s = Some (s', effs) ->
    List.length (issuedAt MIN_REQUEST_GAP_MS parse evs s) = fetchCount effs.
Proof.
  induction evs as [|ev evs IH]; intros s s' effs H;
    cbn [Controller.run issuedAt] in *.
  - now injection H as _ <-.
  - destruct (step ev s) as [[s1 effs1]|] eqn:E1; [|discriminate].
    destruct (run evs s1) as [[s2 effs2]|] eqn:E2; [|discriminate].
    injection H as _ <-. specialize (IH _ _ _ E2).
    unfold fetchCount in *. rewrite filter_app, length_app, <- IH.
    destruct (step_last _ _ _ _ E1) as [[Hc Hl]|(sc & now & -> & Hc & Hgap & Hl)];
      unfold fetchCount in Hc; rewrite Hc.
    + destruct ev; reflexivity.
    + reflexivity.
Qed.

(** X13: the rate of the fetches.  Along any run of the component, the
    calls that issued a fetch did so at clock readings at least the
    minimum gap apart, the first at least the gap after the last
    request before the run; and every fetch of the run is one of them. *)
Theorem fetches_are_spaced (evs : list event) (s s' : state Data) (effs : list effect) :
  run evs s = Some (s', effs) ->
  spaced MIN_REQUEST_GAP_MS
         (lastRequestAtRef s :: issuedAt MIN_REQUEST_GAP_MS parse evs s)
  /\ List.length (issuedAt MIN_REQUEST_GAP_MS parse evs s) = fetchCount effs.
Proof.
  intros H. split; [apply issuedAt_spaced | eapply issuedAt_count; eassumption].
Qed.

(** X14: the release.  However the request in flight ends (rejected
    fetch, bad status, rejected or delivered body), the spinner and the
    loading flag are cleared and its creator, once resumed, clears the
    ref, with the request times untouched; and the ref cannot be cleared
    before the request has ended. *)
Theorem released_on_every_outcome
        (d : Data) (s : state Data) (p : promise) (a : awaiting) (ev : event) :
  reachable d s ->
  In (p, a) (requests s) ->
  completes p a ev = true ->
  step (Resumed p) s = None
  /\ exists s1,
      step ev s = Some (s1, [])
      /\ isRefreshing s1 = false /\ loading s1 = false
      /\ outstanding s1 = 0%nat
      /\ inFlightRequestRef s1 = Some p
      /\ exists s2,
          step (Resumed p) s1 = Some (s2, [])
          /\ inFlightRequestRef s2 = None
          /\ snapshot s2 = snapshot s1 /\ error s2 = error s1
          /\ lastRequestAtRef s2 = lastRequestAtRef s
          /\ nextAllowedRefreshAt s2 = nextAllowedRefreshAt s.
Proof.
  intros Hreach Hin Hev. pose proof (reachable_Coherent _ _ _ _ _ Hreach) as Hc.
  assert (Hp : pendingAt p a s = true).
  { unfold pendingAt. apply existsb_exists. exists (p, a). split; [assumption|].
    cbn. rewrite Nat.eqb_refl. now destruct a. }
  destruct (Coherent_pendingAt _ _ _ _ Hc Hp) as (Hf & Hr & Hcal).
  split.
  { cbn [Controller.step]. unfold pending. rewrite Hr. cbn.
    now rewrite Nat.eqb_refl, andb_false_r. }
  assert (Hshape : exists s1,
             step ev s = Some (s1, [])
             /\ isRefreshing s1 = false /\ loading s1 = false
             /\ requests s1 = [] /\ callers s1 = [p]
             /\ inFlightRequestRef s1 = Some p
             /\ lastRequestAtRef s1 = lastRequestAtRef s
             /\ nextAllowedRefreshAt s1 = nextAllowedRefreshAt s).
  { destruct ev as [sc now | q ok status | q e | q html date | q e | q];
      destruct a; cbn in Hev; try discriminate.
    all: try (destruct ok; try discriminate).
    all: apply Nat.eqb_eq in Hev; subst q; cbn [Controller.step]; rewrite Hp.
    all: cbn [negb]; eexists; (split; [reflexivity|]); cbn.
    all: rewrite ?Hr, ?Hcal, ?Hf; cbn; rewrite ?Nat.eqb_refl; cbn; auto 10. }
  destruct Hshape as (s1 & Hs & H1 & H2 & H3 & H4 & H5 & H6 & H7).
  exists s1. split; [exact Hs|]. split; [exact H1|]. split; [exact H2|].
  split; [unfold outstanding; now rewrite H3|]. split; [exact H5|].
  exists (release p s1). split.
  { cbn [Controller.step]. unfold pending. rewrite H3, H4. cbn.
    now rewrite Nat.eqb_refl. }
  cbn. auto.
Qed.

(** X15: a refresh that succeeds.  From a state with nothing in flight
    and the gap passed, a call, an ok response, its body and the
    resumption of the call make one fetch for the stop code and leave
    the parse of the body as the snapshot, the error cleared, the update
    time set, and the next allowed time one gap after the call. *)
Theorem successful_refresh
        (d : Data) (s : state Data) (stopCode : option string)
        (now status date : Z) (html : string) :
  reachable d s ->
  inFlightRequestRef s = None ->
  present stopCode = true ->
  (MIN_REQUEST_GAP_MS <= now - lastRequestAtRef s)%Z ->
  exists s',
    run [Call stopCode now;
         FetchFulfilled (fresh s) true status;
         TextFulfilled (fresh s) html date;
         Resumed (fresh s)] s
    = Some (s', [Fetch (urlOf stopCode); Return (Awaited (fresh s))])
    /\ snapshot s' = parse html
    /\ error s' = None
    /\ lastUpdated s' = Some date
    /\ loading s' = false /\ isRefreshing s' = false
    /\ inFlightRequestRef s' = None /\ outstanding s' = 0%nat
    /\ lastRequestAtRef s' = now
    /\ nextAllowedRefreshAt s' = (now + MIN_REQUEST_GAP_MS)%Z.
Proof.
  intros Hreach Hf Hsc Hgap.
  pose proof (reachable_Coherent _ _ _ _ _ Hreach) as Hc.
  unfold Coherent in Hc. rewrite Hf in Hc. destruct Hc as [Hr Hcal].
  set (p := fresh s).
  assert (E1 : step (Call stopCode now) s =
               Some (issue now s, [Fetch (urlOf stopCode); Return (Awaited p)])).
  { cbn [Controller.step]. rewrite Hsc, Hf. cbn [negb].
    destruct (Z.ltb_spec (now - lastRequestAtRef s) MIN_REQUEST_GAP_MS);
      [lia | reflexivity]. }
  assert (E2 : step (FetchFulfilled p true status) (issue now s) =
               Some (readBody p (issue now s), [])).
  { cbn [Controller.step]. unfold pendingAt. cbn. rewrite Hr. cbn.
    unfold p. now rewrite Nat.eqb_refl. }
  assert (E3 : step (TextFulfilled p html date) (readBody p (issue now s)) =
               Some (succeeded parse p html date (readBody p (issue now s)), [])).
  { cbn [Controller.step]. unfold pendingAt. cbn. rewrite Hr. cbn.
    unfold p. now rewrite !Nat.eqb_refl. }
  assert (E4 : step (Resumed p) (succeeded parse p html date (readBody p (issue now s))) =
               Some (release p (succeeded parse p html date (readBody p (issue now s))), [])).
  { cbn [Controller.step]. unfold pending. cbn. rewrite Hr, Hcal. cbn.
    unfold p. now rewrite !Nat.eqb_refl. }
  exists (release p (succeeded parse p html date (readBody p (issue now s)))).
  split.
  - cbn [Controller.run]. rewrite E1, E2, E3, E4. reflexivity.
  - unfold outstanding. cbn. rewrite Hr. cbn. unfold p.
    rewrite !Nat.eqb_refl. cbn. auto 10.
Qed.

Lemma step_loading (ev : event) (s s' : state Data) (effs : list effect) :
  step ev s = Some (s', effs) -> loading s = false -> loading s' = false.
Proof.
  destruct ev as [sc now | p ok status | p e | p html date | p e | p];
    cbn [Controller.step]; intros H Hl.
  - destruct (negb (present sc)); [now injection H as <- _|].
    destruct (inFlightRequestRef s); [now injection H as <- _|].
    destruct (Z.ltb _ _); now injection H as <- _.
  - destruct (pendingAt p AtFetch s); [|discriminate].
    destruct (negb ok); now injection H as <- _.
  - destruct (pendingAt p AtFetch s); [|discriminate]. now injection H as <- _.
  - destruct (pendingAt p AtText s); [|discriminate]. now injection H as <- _.
  - destruct (pendingAt p AtText s); [|discriminate]. now injection H as <- _.
  - destruct (existsb _ _ && _); [|discriminate]. now injection H as <- _.
Qed.

Lemma run_loading (evs : list event) :
  forall (s s' : state Data) effs,
    run evs s = Some (s', effs) -> loading s = false -> loading s' = false.
Proof.
  induction evs as [|ev evs IH]; intros s s' effs H Hl; cbn [Controller.run] in H.
  - now injection H as <- _.
  - destruct (step ev s) as [[s1 effs1]|] eqn:E1; [|discriminate].
    destruct (run evs s1) as [[s2 effs2]|] eqn:E2; [|discriminate].
    injection H as <- _. eapply IH; [eassumption|].
    eapply step_loading; eassumption.
Qed.

(** X16: the loading placeholder.  While a page that the component
    reached is still loading, it has its first data, no error and no
    update time; and once loading is over, no run brings it back. *)
Theorem loading_only_at_first (d : Data) (s : state Data) :
  reachable d s ->
  (loading s = true ->
   snapshot s = d /\ error s = None /\ lastUpdated s = None)
  /\ (loading s = false ->
      forall evs s' effs, run evs s = Some (s', effs) -> loading s' = false).
Proof.
  intros Hreach. destruct (reachable_Settled _ _ Hreach) as (_ & _ & _ & Hl).
  split; [exact Hl|].
  intros Hfalse evs s' effs H. eapply run_loading; eassumption.
Qed.

End ControllerMore.

Lemma spinner_tracks_fetch_witness :
  let s := Controller.issue 5000 1700000000000 StopPage_initial in
  Controller.isRefreshing s = true <-> Controller.outstanding s = 1.
Proof.
  apply (spinner_tracks_fetch 5000 StopSnapshot (parseBusData (fun _ => sampleDocument))
           emptySnapshot).
  exists [Controller.Call (Some "402854") 1700000000000%Z]. eexists. reflexivity.
Defined.

Lemma enabled_button_is_honoured_witness :
  let s := afterFailure 5000 1700000000000 (Controller.ErrorObject "Failed to fetch") in
  exists s' effs,
    Controller.step 5000 (parseBusData (fun _ => sampleDocument))
      (Controller.Call (Some "402854") 1700000005200) s = Some (s', effs)
    /\ effs <> [Controller.Return Controller.Undefined]
    /\ (Controller.inFlightRequestRef s = None -> Controller.fetchCount effs = 1).
Proof.
  apply (enabled_button_is_honoured 5000 StopSnapshot
           (parseBusData (fun _ => sampleDocument)) emptySnapshot
           (afterFailure 5000 1700000000000 (Controller.ErrorObject "Failed to fetch"))
           1700000005000%Z).
  - exists [Controller.Call (Some "402854") 1700000000000%Z;
            Controller.FetchRejected 0 (Controller.ErrorObject "Failed to fetch");
            Controller.Resumed 0].
    eexists. reflexivity.
  - reflexivity.
  - lia.
  - lia.
  - reflexivity.
Defined.

Lemma fetches_are_spaced_witness :
  spaced 5000
    (0%Z :: issuedAt 5000 (parseBusData (fun _ => sampleDocument))
       [Controller.Call (Some "402854") 1700000000000;
        Controller.FetchRejected 0 Controller.OtherValue;
        Controller.Resumed 0;
        Controller.Call (Some "402854") 1700000003000;
        Controller.Call (Some "402854") 1700000006000]
       StopPage_initial)
  /\ issuedAt 5000 (parseBusData (fun _ => sampleDocument))
       [Controller.Call (Some "402854") 1700000000000;
        Controller.FetchRejected 0 Controller.OtherValue;
        Controller.Resumed 0;
        Controller.Call (Some "402854") 1700000003000;
        Controller.Call (Some "402854") 1700000006000]
       StopPage_initial
     = [1700000000000; 1700000006000]%Z.
Proof.
  split; [|reflexivity].
  eapply (proj1 (fetches_are_spaced 5000 StopSnapshot
                   (parseBusData (fun _ => sampleDocument)) _ StopPage_initial _ _ _)).
  Unshelve. 3: reflexivity.
Defined.

Lemma released_on_every_outcome_witness :
  let s := Controller.issue 5000 1700000000000 StopPage_initial in
  Controller.step 5000 (parseBusData (fun _ => sampleDocument)) (Controller.Resumed 0) s
  = None.
Proof.
  apply (released_on_every_outcome 5000 StopSnapshot
           (parseBusData (fun _ => sampleDocument)) emptySnapshot
           (Controller.issue 5000 1700000000000 StopPage_initial)
           0 Controller.AtFetch (Controller.FetchFulfilled 0 false 502)).
  - exists [Controller.Call (Some "402854") 1700000000000%Z]. eexists. reflexivity.
  - left. reflexivity.
  - reflexivity.
Defined.

Lemma successful_refresh_witness :
  exists s',
    Controller.run 5000 (parseBusData (fun _ => quietDocument))
      [Controller.Call (Some "402854") 1700000000000;
       Controller.FetchFulfilled 0 true 200;
       Controller.TextFulfilled 0 "<html>" 1700000000300;
       Controller.Resumed 0] StopPage_initial
    = Some (s', [Controller.Fetch (Controller.urlOf (Some "402854"));
                 Controller.Return (Controller.Awaited 0)])
    /\ Controller.snapshot s' = parseBusData (fun _ => quietDocument) "<html>".
Proof.
  destruct (successful_refresh 5000 StopSnapshot (parseBusData (fun _ => quietDocument))
              emptySnapshot StopPage_initial (Some "402854")
              1700000000000 200 1700000000300 "<html>")
    as (s' & Hrun & Hsnap & _).
  - exists [], []. reflexivity.
  - reflexivity.
  - reflexivity.
  - cbn. lia.
  - exists s'. split; assumption.
Defined.

Lemma loading_only_at_first_witness :
  Controller.snapshot (Controller.issue 5000 1700000000000 StopPage_initial)
  = emptySnapshot.
Proof.
  apply (proj1 (loading_only_at_first 5000 StopSnapshot
                  (parseBusData (fun _ => sampleDocument)) emptySnapshot
                  (Controller.issue 5000 1700000000000 StopPage_initial)
                  (ex_intro _ [Controller.Call (Some "402854") 1700000000000%Z]
                     (ex_intro _ _ eq_refl)))).
  reflexivity.
Defined.

(* ===================================================================== *)
(** * The proxies *)
(* ===================================================================== *)

Lemma encodeUnit_safe (c : ascii) : allChars isUrlSafe (Proxy.encodeUnit c) = true.
Proof. destruct c as [[] [] [] [] [] [] [] []]; vm_compute; reflexivity. Qed.

Lemma encodeURIComponent_safe (s : string) :
  allChars isUrlSafe (Proxy.encodeURIComponent s) = true.
Proof.
  induction s as [|c s IH]; [reflexivity|].
  cbn [Proxy.encodeURIComponent]. now rewrite allChars_app, encodeUnit_safe, IH.
Qed.

Lemma encodeURIComponent_unreserved (s : string) :
  allChars Proxy.isUnreserved s = true -> Proxy.encodeURIComponent s = s.
Proof.
  induction s as [|c s IH]; [reflexivity|]. cbn [allChars Proxy.encodeURIComponent].
  intros H. apply andb_true_iff in H as [Hc Hs].
  unfold Proxy.encodeUnit. rewrite Hc, (IH Hs). reflexivity.
Qed.

(** X17: the proxy of [server.ts].  A request without [q], or with an
    empty one, is answered 400 and nothing is fetched; any other is
    relayed to the upstream URL, which is the fixed prefix followed by
    the encoded [q]: characters that are unreserved or a [%], so no [q]
    can add a parameter, a fragment or a path to it; a [q] of unreserved
    characters (a stop code) is passed as it is. *)
Theorem proxy_request (q : option string) :
  (Proxy.handle q = Proxy.Reply 400 "Missing q parameter"
   <-> q = None \/ q = Some EmptyString)
  /\ (forall url,
         Proxy.handle q = Proxy.Relay url ->
         exists query enc,
           q = Some query /\ query <> EmptyString
           /\ url = "https://bustime.mta.info/m/?q=" ++ enc
           /\ enc = Proxy.encodeURIComponent query
           /\ allChars isUrlSafe enc = true
           /\ (allChars Proxy.isUnreserved query = true -> enc = query)).
Proof.
  unfold Proxy.handle. split.
  - destruct q as [[|c query]|]; cbn; split; intros H; auto; try discriminate;
      destruct H as [H|H]; discriminate.
  - intros url H. destruct q as [[|c query]|]; cbn in H; try discriminate.
    injection H as <-.
    exists (String c query), (Proxy.encodeURIComponent (String c query)).
    repeat split; try discriminate.
    + apply encodeURIComponent_safe.
    + apply encodeURIComponent_unreserved.
Qed.

Lemma proxy_request_witness :
  exists query enc,
    Some "402854" = Some query /\ query <> EmptyString
    /\ "https://bustime.mta.info/m/?q=402854" = "https://bustime.mta.info/m/?q=" ++ enc
    /\ enc = Proxy.encodeURIComponent query
    /\ allChars isUrlSafe enc = true
    /\ (allChars Proxy.isUnreserved query = true -> enc = query).
Proof.
  apply (proj2 (proxy_request (Some "402854")) "https://bustime.mta.info/m/?q=402854").
  reflexivity.
Defined.

Lemma exec_Bol_result (icase : bool) (r : regex) (s s' : string) (cs' : captures) :
  rmatch icase (String.length s) r s [] (fun s' cs' => Some (s', cs')) = Some (s', cs') ->
  exec icase (Seq Bol r) s =
  Some {| whole := take (String.length s - String.length s') s;
          index := 0; groups := cs' |}.
Proof.
  intros E. unfold exec.
  destruct s as [|c s]; cbn [searchFrom]; rewrite rmatch_Bol, Nat.eqb_refl, E;
    now rewrite Nat.sub_diag.
Qed.

Lemma rewrite_api (rest : string) :
  Proxy.rewrite ("/api/bustime" ++ rest) = "/m/" ++ rest.
Proof.
  unfold Proxy.rewrite, Proxy.replaceRe, Proxy.apiRe.
  rewrite (exec_Bol_result false (Lit "/api/bustime") ("/api/bustime" ++ rest) rest []).
  - cbn [index whole]. rewrite take_app_length.
    cbn [take Nat.add]. rewrite drop_app_length. reflexivity.
  - rewrite rmatch_Lit, startsWith_app, drop_app_length. reflexivity.
Qed.

Lemma rewrite_other (path : string) :
  startsWith "/api/bustime" path = false -> Proxy.rewrite path = path.
Proof.
  intros H. unfold Proxy.rewrite, Proxy.replaceRe, Proxy.apiRe.
  rewrite exec_Bol_none; [reflexivity|]. now rewrite rmatch_Lit, H.
Qed.

(** X18: the path rewrite of the development proxy ([vite.config.ts]).
    A path that begins with [/api/bustime] has that prefix, and nothing
    after it, replaced by [/m/]; any other path, be it one that holds
    [/api/bustime] further on or in another letter case, is returned as
    it is. *)
Theorem dev_proxy_rewrite :
  (forall rest, Proxy.rewrite ("/api/bustime" ++ rest) = "/m/" ++ rest)
  /\ (forall path, startsWith "/api/bustime" path = false -> Proxy.rewrite path = path).
Proof.
  split; [exact rewrite_api | exact rewrite_other].
Qed.

Lemma dev_proxy_rewrite_witness :
  Proxy.rewrite "/api/bustime?q=402854" = "/m/?q=402854"
  /\ Proxy.rewrite "/v1/api/bustime?q=402854" = "/v1/api/bustime?q=402854".
Proof.
  split.
  - apply (proj1 dev_proxy_rewrite "?q=402854").
  - apply (proj2 dev_proxy_rewrite "/v1/api/bustime?q=402854"). reflexivity.
Defined.

Lemma stop_page_cards_witness :
  Permutation (routes (parseDocument sampleDocument))
              (StopPage_cards (routes (parseDocument sampleDocument))).
Proof. apply (proj1 (stop_page_cards (routes (parseDocument sampleDocument)))). Defined.

Lemma home_page_cards_witness :
  In "M102" (emptyRoutes (Home.parseDocument sampleDocument))
  /\ In "M102" (Home_cards false (Home.parseDocument sampleDocument)).
Proof.
  destruct (home_page_cards false (Home.parseDocument sampleDocument) "M102")
    as (Hempty & Hcards & _).
  split.
  - apply Hempty. split.
    + right. left. reflexivity.
    + intros (r & Hin & Hname & _). vm_compute in Hin.
      destruct Hin as [<-|[]]. discriminate.
  - apply Hcards. split; [reflexivity|]. left. right. left. reflexivity.
Defined.

(** Three routes as the stop page draws them: soonest first, the
    route without arrivals last. *)
Example cards_in_order :
  let arr t := {| minutes := t; minutesNum := parseMinutesNum t;
                  stopsAway := EmptyString; vehicleId := EmptyString |} in
  map route
    (StopPage_cards
       [{| route := "M101"; direction := "a"; arrivals := [arr "7 min"] |};
        {| route := "M103"; direction := "b"; arrivals := [] |};
        {| route := "M102"; direction := "c"; arrivals := [arr "<1 min"; arr "9 min"] |};
        {| route := "M15"; direction := "d"; arrivals := [arr "Approaching"] |};
        {| route := "M9"; direction := "e"; arrivals := [arr "soon"] |}])
  = ["M15"; "M102"; "M101"; "M9"; "M103"].
Proof. vm_compute. reflexivity. Qed.
